(** * json-schema-typed: the build orchestrator ([.src/build.ts]), the
    compiler wrapper ([compileTypeScript]) and the checksum ledger.

    The script is embedded as a program in an exception monad over a world
    made of the file system, the persisted ledger document and the console.
    JavaScript strings are modelled by [string], a character standing for
    the UTF-16 code unit of the same number (code units below 256). *)

From Stdlib Require Import ZArith List Ascii String Sorted Permutation Lia Bool.
From stdpp Require Import gmap strings list sorting pretty.

Local Open Scope Z_scope.
#[local] Set Warnings "-clear-no-such-hyp".

(** ** JavaScript built-ins used by the script *)

Module Js.

(** [Array.prototype.join]. *)
Fixpoint join (sep : string) (l : list string) : string :=
  match l with
  | [] => ""
  | [x] => x
  | x :: l' => x +:+ sep +:+ join sep l'
  end.

(** [s.startsWith(p)]. *)
Fixpoint startsWith (p s : string) : bool :=
  match p, s with
  | EmptyString, _ => true
  | String a p', String b s' => Ascii.eqb a b && startsWith p' s'
  | String _ _, EmptyString => false
  end.

(** [s.split(sep)[0]] for a one-character separator: the part of [s] before
    the first occurrence of [sep], the whole of [s] when there is none. *)
Fixpoint splitHead (sep : ascii) (s : string) : string :=
  match s with
  | EmptyString => EmptyString
  | String c s' => if Ascii.eqb c sep then EmptyString else String c (splitHead sep s')
  end.

Definition codeUnit (c : ascii) : Z := Z.of_N (N_of_ascii c).

Definition isDigit (c : ascii) : bool := (48 <=? codeUnit c) && (codeUnit c <=? 57).

(** [StrWhiteSpaceChar] among the code units below 256: TAB, LF, VT, FF, CR,
    SP and NBSP. *)
Definition isStrWhiteSpace (c : ascii) : bool :=
  let u := codeUnit c in
  ((9 <=? u) && (u <=? 13)) || (u =? 32) || (u =? 160).

Fixpoint trimStart (s : string) : string :=
  match s with
  | EmptyString => EmptyString
  | String c s' => if isStrWhiteSpace c then trimStart s' else s
  end.

(** The value of the longest prefix of decimal digits, [None] when that
    prefix is empty. [acc] is the value read so far. *)
Fixpoint digits (acc : option Z) (s : string) : option Z :=
  match s with
  | EmptyString => acc
  | String c s' =>
      if isDigit c
      then digits (Some (10 * default 0 acc + (codeUnit c - 48))) s'
      else acc
  end.

(** [parseInt(s, 10)] as a mathematical integer, [None] standing for [NaN]:
    leading white space is skipped, one sign is read, then the longest run
    of decimal digits (radix 10 strips no [0x] prefix). *)
Definition parseInt (s : string) : option Z :=
  match trimStart s with
  | String "-" r => Z.opp <$> digits None r
  | String "+" r => digits None r
  | r => digits None r
  end.

(** [Number.isInteger] of a [parseInt] result. The result is [NaN] or an
    integer converted to a double; the conversion is to an infinity, which
    is not an integer, from [2^1024 - 2^970] on. *)
Definition isInteger (n : option Z) : bool :=
  match n with
  | None => false
  | Some z => Z.abs z <? 2 ^ 1024 - 2 ^ 970
  end.

(** [Array.prototype.sort] with a comparator: a stable sort. [x] is placed
    before the first element it does not compare greater than. *)
Section Sort.
Context {A : Type} (cmp : A → A → Z).

Fixpoint sortInsert (x : A) (l : list A) : list A :=
  match l with
  | [] => [x]
  | y :: l' => if cmp x y <=? 0 then x :: y :: l' else y :: sortInsert x l'
  end.

Definition sort (l : list A) : list A := foldr sortInsert [] l.
End Sort.

(** What [sort] asks of its comparator (a consistent comparator): any two
    elements are comparable and the order is transitive. *)
Record Consistent {A : Type} (cmp : A → A → Z) : Prop := {
  cmp_total : ∀ a b, cmp a b <= 0 ∨ cmp b a <= 0;
  cmp_trans : ∀ a b c, cmp a b <= 0 → cmp b c <= 0 → cmp a c <= 0
}.

(** [a] does not come after [b]. *)
Definition notAfter {A : Type} (cmp : A → A → Z) (a b : A) : Prop := cmp a b <= 0.

(** *** Ordinary objects with string keys and string values

    An object is the list of its own properties in the order
    [Object.entries] and [JSON.stringify] enumerate them: the keys that are
    array indices in ascending numeric order, then the other keys in the
    order of their creation. *)

Definition Obj : Type := list (string * string).

Fixpoint allDigits (s : string) : bool :=
  match s with
  | EmptyString => true
  | String c s' => isDigit c && allDigits s'
  end.

(** A canonical numeric string below [2^32 - 1] is an array index. *)
Definition arrayIndex (k : string) : option Z :=
  match k with
  | EmptyString => None
  | String c r =>
      if allDigits k && (negb (codeUnit c =? 48) || String.eqb r EmptyString)
      then match digits None k with
           | Some n => if n <? 2 ^ 32 - 1 then Some n else None
           | None => None
           end
      else None
  end.

Fixpoint get (o : Obj) (k : string) : option string :=
  match o with
  | [] => None
  | (k', v) :: o' => if String.eqb k' k then Some v else get o' k
  end.

Definition keys (o : Obj) : list string := o.*1.

(** Assignment to an existing property keeps its place. *)
Fixpoint update (o : Obj) (k v : string) : Obj :=
  match o with
  | [] => []
  | (k', v') :: o' => if String.eqb k' k then (k, v) :: o' else (k', v') :: update o' k v
  end.

(** A new array-index property goes before the first property that is not
    an array index or is a greater one. *)
Fixpoint defineIndex (o : Obj) (n : Z) (k v : string) : Obj :=
  match o with
  | [] => [(k, v)]
  | (k', v') :: o' =>
      match arrayIndex k' with
      | Some n' => if n' <? n then (k', v') :: defineIndex o' n k v else (k, v) :: o
      | None => (k, v) :: o
      end
  end.

(** [o[k] = v]. *)
Definition set (o : Obj) (k v : string) : Obj :=
  match get o k with
  | Some _ => update o k v
  | None =>
      match arrayIndex k with
      | Some n => defineIndex o n k v
      | None => o ++ [(k, v)]
      end
  end.

(** [Object.fromEntries], also the object a JSON document of string members
    is parsed to: the members are assigned in order. *)
Definition fromEntries (l : list (string * string)) : Obj :=
  fold_left (λ o kv, set o kv.1 kv.2) l [].

(** *** [String.prototype.replace] with a string pattern and a string
    replacement

    The first occurrence of the pattern is replaced by the expansion of the
    replacement ([GetSubstitution]): in it [$$] stands for a dollar sign,
    [$&] for the pattern, [$] and a backtick for what precedes the
    occurrence, [$] and an apostrophe for what follows it. A string pattern
    has no captures: a dollar sign before anything else stands for itself. *)

Fixpoint skipN (n : nat) (s : string) : string :=
  match n, s with
  | S n', String _ s' => skipN n' s'
  | _, _ => s
  end.

Fixpoint getSubstitution (matched before after template : string) : string :=
  match template with
  | EmptyString => EmptyString
  | String c t =>
      if Ascii.eqb c "$"
      then match t with
           | EmptyString => String c EmptyString
           | String c' t' =>
               if Ascii.eqb c' "$" then String "$" (getSubstitution matched before after t')
               else if Ascii.eqb c' "&" then matched +:+ getSubstitution matched before after t'
               else if Ascii.eqb c' "`" then before +:+ getSubstitution matched before after t'
               else if Ascii.eqb c' "'" then after +:+ getSubstitution matched before after t'
               else String c (getSubstitution matched before after t)
           end
      else String c (getSubstitution matched before after t)
  end.

(** [before] is the part of the subject that precedes [s]. *)
Fixpoint replaceFrom (before s pattern replacement : string) {struct s} : string :=
  if startsWith pattern s
  then
    let after := skipN (String.length pattern) s in
    before +:+ getSubstitution pattern before after replacement +:+ after
  else
    match s with
    | EmptyString => before
    | String c s' => replaceFrom (before +:+ String c EmptyString) s' pattern replacement
    end.

Definition replace (s pattern replacement : string) : string :=
  replaceFrom EmptyString s pattern replacement.

End Js.

(** ** Characters that a string literal cannot hold *)

Definition nl : string := String "010"%char EmptyString.
Definition dquote : string := String "034"%char EmptyString.
Definition backtick : string := String "096"%char EmptyString.

(** ** The world of a run and the monad of the script *)

(** The outcome of a computation: a value, or the exception that ends the
    script. *)
Inductive Outcome (A : Type) : Type :=
| Return (a : A)
| Throw (e : string).
Arguments Return {A} a.
Arguments Throw {A} e.

(** [fs]: the text files, by repository-relative path with forward slashes.
    [ledger]: the document [.src/checksums.json], kept apart from [fs] as the
    list of its members in document order. [console]: the lines logged so
    far. [written]: the calls of [Deno.writeTextFile] so far, in order, but
    for the one that writes the ledger. *)
Record World : Type := {
  fs : gmap string string;
  ledger : list (string * string);
  console : list string;
  written : list (string * string)
}.

Definition M (A : Type) : Type := World → Outcome A * World.

Definition ret {A} (a : A) : M A := λ w, (Return a, w).
Definition throw {A} (e : string) : M A := λ w, (Throw e, w).
Definition bind {A B} (c : M A) (k : A → M B) : M B :=
  λ w, match c w with
       | (Return a, w') => k a w'
       | (Throw e, w') => (Throw e, w')
       end.
(** An awaited promise: a rejection is thrown. *)
Definition await {A} (o : Outcome A) : M A :=
  match o with Return a => ret a | Throw e => throw e end.

Notation "'let*' x ':=' c 'in' k" := (bind c (λ x, k))
  (at level 10, x name, c at level 100, k at level 200).
Notation "c ';;' k" := (bind c (λ _, k))
  (at level 100, k at level 200, right associativity).

Definition setFs (f : gmap string string → gmap string string) (w : World) : World :=
  {| fs := f (fs w); ledger := ledger w; console := console w; written := written w |}.

Definition readTextFile (p : string) : M string :=
  λ w, match fs w !! p with
       | Some t => (Return t, w)
       | None => (Throw ("NotFound: " +:+ p), w)
       end.

Definition writeTextFile (p t : string) : M unit :=
  λ w, (Return (),
        {| fs := <[p := t]> (fs w); ledger := ledger w; console := console w;
           written := written w ++ [(p, t)] |}).

Definition console_log (line : string) : M unit :=
  λ w, (Return (),
        {| fs := fs w; ledger := ledger w; console := console w ++ [line];
           written := written w |}).

(** [fs.copy(src, dst, { overwrite: true })] of one file. *)
Definition copy (src dst : string) : M unit :=
  λ w, match fs w !! src with
       | Some t => (Return (), setFs (insert dst t) w)
       | None => (Throw ("NotFound: " +:+ src), w)
       end.

(** The import of [checksums.json]. *)
Definition importChecksums : M Js.Obj := λ w, (Return (Js.fromEntries (ledger w)), w).

(** [checksums.json] is rewritten with the properties of [o], in the order
    [JSON.stringify] enumerates them. *)
Definition writeChecksums (o : Js.Obj) : M unit :=
  λ w, (Return (),
        {| fs := fs w; ledger := o; console := console w; written := written w |}).

(** ** Data of a draft *)

Record Copyright : Type := { c_year : Z; c_credits : list string }.

(** A draft definition ([types.ValidationSpecDefinition]): the fields the
    orchestrator reads, [$draft], [$copyright] and [$license], and the rest
    of the definition. *)
Record ValidationSpecDefinition (Schema : Type) : Type := {
  S_draft : string;
  S_copyright : Copyright;
  S_license : string;
  S_schema : Schema
}.
Arguments S_draft {Schema} _.
Arguments S_copyright {Schema} _.
Arguments S_license {Schema} _.
Arguments S_schema {Schema} _.

(** An element of [licenseCopyrights]. *)
Record LicenseCopyright : Type := { draft : string; year : Z; credits : list string }.

(** ** The TypeScript compiler API *)

Record SourceFile : Type := {
  fileName : string;
  getLineAndCharacterOfPosition : nat → nat * nat
}.

Inductive DiagnosticCategory : Type := Warning | Error | Suggestion | Message.

Record Diagnostic (MessageText : Type) : Type := {
  category : DiagnosticCategory;
  file : option SourceFile;
  start : nat;
  messageText : MessageText
}.
Arguments category {MessageText} _.
Arguments file {MessageText} _.
Arguments start {MessageText} _.
Arguments messageText {MessageText} _.

Record EmitResult (MessageText : Type) : Type := {
  emitSkipped : bool;
  diagnostics : list (Diagnostic MessageText)
}.
Arguments emitSkipped {MessageText} _.
Arguments diagnostics {MessageText} _.

(** A program: what [emit] writes and returns, and [getPreEmitDiagnostics]. *)
Record Program (MessageText : Type) : Type := {
  emitted : list (string * string);
  emitResult : EmitResult MessageText;
  preEmitDiagnostics : list (Diagnostic MessageText)
}.
Arguments emitted {MessageText} _.
Arguments emitResult {MessageText} _.
Arguments preEmitDiagnostics {MessageText} _.

(** ** Collaborators: the modules and built-ins the script calls *)

Record Collaborators (Schema MessageText : Type) : Type := {
  (** [a.localeCompare(b)] *)
  localeCompare : string → string → Z;
  (** [crypto.subtle.digest("MD5", content)], as bytes *)
  md5 : string → list Z;
  (** [(await import(path)).default] for a definition module; the script
      writes no file under [.src/draft] *)
  importDefault : string → Outcome (ValidationSpecDefinition Schema);
  formatDefinitionDescriptions :
    ValidationSpecDefinition Schema → Z → Outcome (ValidationSpecDefinition Schema);
  (** [formatMarkdown(text, { lineWidth })], [None] without options *)
  formatMarkdown : string → option Z → Outcome string;
  expandSourcePlaceholders :
    string → string → ValidationSpecDefinition Schema → Outcome string;
  (** [JSON.stringify(definition, undefined, 2)] *)
  JSON_stringify : ValidationSpecDefinition Schema → string;
  (** [deno fmt] on the text of a file, [None] when it fails *)
  denoFmt : string → option string;
  (** [ts.createProgram([sourceFile], { outDir, ... }, host)] *)
  createProgram : string → string → gmap string string → Program MessageText;
  flattenDiagnosticMessageText : MessageText → string → string;
  trim : string → string;
  (** [s.replace(pattern, replacement)], both strings *)
  replace : string → string → string → string;
  (** [s.replace(pattern, () => text)] *)
  replaceFn : string → string → string → string;
  replaceAll : string → string → string → string;
  (** [n.toLocaleString("en")] *)
  toLocaleString : nat → string
}.
Arguments localeCompare {Schema MessageText} _.
Arguments md5 {Schema MessageText} _.
Arguments importDefault {Schema MessageText} _.
Arguments formatDefinitionDescriptions {Schema MessageText} _.
Arguments formatMarkdown {Schema MessageText} _.
Arguments expandSourcePlaceholders {Schema MessageText} _.
Arguments JSON_stringify {Schema MessageText} _.
Arguments denoFmt {Schema MessageText} _.
Arguments createProgram {Schema MessageText} _.
Arguments flattenDiagnosticMessageText {Schema MessageText} _.
Arguments trim {Schema MessageText} _.
Arguments replace {Schema MessageText} _.
Arguments replaceFn {Schema MessageText} _.
Arguments replaceAll {Schema MessageText} _.
Arguments toLocaleString {Schema MessageText} _.

(** What a run is started with. *)
Record Invocation : Type := {
  (** [Deno.args.includes("--force")] *)
  FORCE_REFRESH : bool;
  (** the draft directories [expandGlob] yields, in its order *)
  globbed : list string;
  (** [new Date().getFullYear()] *)
  fullYear : Z;
  VERSION : string;
  (** [JSON.stringify] of the imported [package.json] once its [version],
      [main], [types] and [exports] (as entries) are set *)
  packageJson : string → string → string → list (string * (string * string)) → string
}.

(** ** [utils/checksum.ts] *)

Definition hexDigit (n : Z) : string :=
  String (ascii_of_N (Z.to_N (if n <? 10 then 48 + n else 87 + n))) EmptyString.

(** [byte.toString(16).padStart(2, '0')] *)
Definition byteHex (b : Z) : string := hexDigit (b / 16) +:+ hexDigit (b mod 16).

(** ** [tsc.ts] and [build.ts] *)

(** The two lines the loop logs, and the text of a generated module. *)
Definition skippingLine (draftId : string) : string :=
  "Skipping draft-" +:+ draftId +:+ ": no changes".
Definition completeLine (draftId : string) : string :=
  "draft_" +:+ draftId +:+ ": complete".

Definition generatedBanner : list string :=
  [ "// @generated";
    "// This code is automatically generated. Manual editing is not recommended.";
    "" ].
Definition generatedSource (modCode : string) : string :=
  Js.join nl (generatedBanner ++ [modCode]).

Definition latestSource (latestDraft : string) : string :=
  "export * from " +:+ dquote +:+ "./draft_" +:+ latestDraft +:+ ".ts" +:+ dquote +:+ ";".
Definition versionSource (version : string) : string :=
  "export const VERSION = " +:+ dquote +:+ version +:+ dquote +:+ ";".

Section Build.
Context {Schema MessageText : Type}.
Variable C : Collaborators Schema MessageText.
Variable inv : Invocation.

Definition hashHex (fileContent : string) : string :=
  let hashArray := md5 C fileContent in
  Js.join "" (byteHex <$> hashArray).

Definition fileChecksum (file : string) : M string :=
  let* fileContent := readTextFile file in
  ret (hashHex fileContent).

(** *** [compileTypeScript] *)

Definition describeDiagnostic (diagnostic : Diagnostic MessageText) : string :=
  match file diagnostic with
  | Some f =>
      let '(line, character) := getLineAndCharacterOfPosition f (start diagnostic) in
      let message := flattenDiagnosticMessageText C (messageText diagnostic) nl in
      fileName f +:+ " (" +:+ pretty (line + 1)%nat +:+ "," +:+ pretty (character + 1)%nat
        +:+ "): " +:+ message
  | None => flattenDiagnosticMessageText C (messageText diagnostic) nl
  end.

(** The part of [compileTypeScript] after the emission. *)
Definition checkDiagnostics (program : Program MessageText) : Outcome unit :=
  let allDiagnostics := preEmitDiagnostics program ++ diagnostics (emitResult program) in
  if (0 <? length allDiagnostics)%nat
  then
    let errors := describeDiagnostic <$> allDiagnostics in
    Throw ("TypeScript compilation failed:" +:+ nl +:+ Js.join nl errors)
  else if emitSkipped (emitResult program)
  then Throw "TypeScript compilation was skipped"
  else Return ().

Definition compileTypeScript (sourceFile outputDir : string) : M unit :=
  λ w,
    let program := createProgram C sourceFile outputDir (fs w) in
    let w' := setFs (λ m, foldl (λ m kv, <[kv.1 := kv.2]> m) m (emitted program)) w in
    await (checkDiagnostics program) w'.

(** *** Paths *)

Definition path_join (a b : string) : string := a +:+ "/" +:+ b.

Definition SRC_DIR : string := ".src".
Definition FILE_TEMPLATES_DIR : string := path_join SRC_DIR "file_templates".
Definition DIST_DIR : string := "dist".
Definition DENO_DIR : string := path_join DIST_DIR "deno".
Definition NODE_DIR : string := path_join DIST_DIR "node".
Definition SPEC_DEFS_DIR : string := path_join DIST_DIR "spec_definitions".
Definition ALL_DIST_DIRS : list string := [DENO_DIR; SPEC_DEFS_DIR; NODE_DIR].

Definition modTemplateFilename : string := path_join SRC_DIR "mod_template.ts".

Definition draftDefFilename (draftId : string) : string :=
  path_join (path_join (path_join SRC_DIR "draft") draftId) "definition.ts".
(** [path.relative(CWD, draftDefFilename).split(path.sep).join("/")]: the
    paths of the model are already relative to [CWD]. *)
Definition draftDefRelativeFilename (draftId : string) : string :=
  draftDefFilename draftId.
Definition jsonDefFilename (draftId : string) : string :=
  path_join SPEC_DEFS_DIR ("draft_" +:+ draftId +:+ ".json").
Definition outputFilename (draftId : string) : string :=
  path_join DENO_DIR ("draft_" +:+ draftId +:+ ".ts").
Definition latestFilename : string := path_join DENO_DIR "draft_latest.ts".
Definition versionFilename : string := path_join DENO_DIR "version.ts".
Definition licenseFilename : string := "LICENSE.md".
Definition packageJsonFilename : string := path_join NODE_DIR "package.json".

(** *** The draft loop *)

(** [new Deno.Command("deno", { args: ["fmt", "--quiet", filename] })
    .output()]: the exit status is not looked at. *)
Definition fmtCommand (filename : string) : M unit :=
  λ w, match fs w !! filename with
       | Some t =>
           match denoFmt C t with
           | Some t' => (Return (), setFs (insert filename t') w)
           | None => (Return (), w)
           end
       | None => (Return (), w)
       end.

(** The test of lines 70-74:
    [draftDefChecksum === checksums[key] && FORCE_REFRESH === false]. *)
Definition unchanged (checksums : Js.Obj) (key draftDefChecksum : string) : bool :=
  match Js.get checksums key with
  | Some recorded => String.eqb draftDefChecksum recorded
  | None => false
  end && negb (FORCE_REFRESH inv).

(** The variables the loop body changes. *)
Record Vars : Type := {
  checksums : Js.Obj;
  licenseCopyrights : list LicenseCopyright
}.

Definition setLicense (d : ValidationSpecDefinition Schema) (l : string) :
    ValidationSpecDefinition Schema :=
  {| S_draft := S_draft d; S_copyright := S_copyright d; S_license := l;
     S_schema := S_schema d |}.

(** Lines 64-67: [{ ...rawDraftSpec.$copyright, draft: rawDraftSpec.$draft }]. *)
Definition licenseCopyright (rawDraftSpec : ValidationSpecDefinition Schema) :
    LicenseCopyright :=
  {| draft := S_draft rawDraftSpec;
     year := c_year (S_copyright rawDraftSpec);
     credits := c_credits (S_copyright rawDraftSpec) |}.

(** Lines 83-131: what is done for a draft that is not skipped. *)
Definition regenerate (modTemplateCode draftId : string)
    (rawDraftSpec : ValidationSpecDefinition Schema) : M unit :=
  let* draftSpec := await (formatDefinitionDescriptions C rawDraftSpec 75) in
  let* license := await (formatMarkdown C (S_license draftSpec) (Some 76)) in
  let draftSpec := setLicense draftSpec (trim C license) in
  let* jsonDef := await (formatDefinitionDescriptions C rawDraftSpec 100000) in
  writeTextFile (jsonDefFilename draftId) (JSON_stringify C jsonDef) ;;
  let* modCode :=
    await (expandSourcePlaceholders C modTemplateFilename modTemplateCode draftSpec) in
  writeTextFile (outputFilename draftId) (generatedSource modCode) ;;
  fmtCommand (outputFilename draftId) ;;
  compileTypeScript (outputFilename draftId) NODE_DIR ;;
  console_log (completeLine draftId).

(** Lines 54-131: the body of the loop. Line 81 assigns to [checksums]
    before the regeneration; when the regeneration throws, the script ends
    and the assignment is lost with the object, which is written to the
    ledger document only after the loop. *)
Definition processDraft (modTemplateCode draftId : string) (v : Vars) : M Vars :=
  let* draftDefChecksum := fileChecksum (draftDefFilename draftId) in
  let* rawDraftSpec := await (importDefault C (draftDefFilename draftId)) in
  let licenseCopyrights' := licenseCopyrights v ++ [licenseCopyright rawDraftSpec] in
  if unchanged (checksums v) (draftDefRelativeFilename draftId) draftDefChecksum
  then
    console_log (skippingLine draftId) ;;
    ret {| checksums := checksums v; licenseCopyrights := licenseCopyrights' |}
  else
    let checksums' :=
      Js.set (checksums v) (draftDefRelativeFilename draftId) draftDefChecksum in
    regenerate modTemplateCode draftId rawDraftSpec ;;
    ret {| checksums := checksums'; licenseCopyrights := licenseCopyrights' |}.

(** [for (const draftId of drafts) { ... }] *)
Fixpoint processDrafts (modTemplateCode : string) (drafts : list string) (v : Vars) :
    M Vars :=
  match drafts with
  | [] => ret v
  | draftId :: rest =>
      let* v' := processDraft modTemplateCode draftId v in
      processDrafts modTemplateCode rest v'
  end.

(** *** After the loop *)

(** Line 47: [drafts.sort((a, b) => a.localeCompare(b))]. *)
Definition drafts : list string := Js.sort (localeCompare C) (globbed inv).

(** Lines 139-147: the entries of [checksums] sorted by key and made an
    object again. *)
Definition sortedChecksums (checksums : Js.Obj) : Js.Obj :=
  Js.fromEntries (Js.sort (λ a b, localeCompare C a.1 b.1) checksums).

Definition hasNumericPrefix (draftId : string) : bool :=
  Js.isInteger (Js.parseInt (Js.splitHead "-" draftId)).

(** Lines 154-156: [filter] makes a new array and [pop] takes its last
    element, [undefined] ([None]) when it is empty. *)
Definition latestDraft (drafts : list string) : option string :=
  last (List.filter hasNumericPrefix drafts).

Definition readmeFilenames : list (string * string) :=
  [ (path_join FILE_TEMPLATES_DIR "README.deno.template.md", path_join DENO_DIR "README.md");
    (path_join FILE_TEMPLATES_DIR "README.node.template.md", path_join NODE_DIR "README.md") ].

Definition readmeText (templateSource latestDraft : string) : string :=
  let s := replaceAll C templateSource "{DRAFT_TOTAL}" (toLocaleString C (length drafts)) in
  let s := replaceAll C s "{NODE_LATEST_DRAFT}" (replaceAll C latestDraft "_" "-") in
  let s := replaceFn C s "{NODE_DRAFT_LIST}"
    (Js.join (nl +:+ "- ")
       ((λ draft, backtick +:+ "draft-" +:+ replaceAll C draft "_" "-" +:+ backtick) <$> drafts)) in
  let s := replaceFn C s "{DENO_DRAFT_LIST}"
    (Js.join (nl +:+ "   - ")
       ((λ draft, backtick +:+ "draft_" +:+ draft +:+ ".ts" +:+ backtick) <$> drafts)) in
  replaceAll C s "{LATEST_DRAFT}" latestDraft.

Fixpoint updateReadmes (l : list (string * string)) (latestDraft : string) : M unit :=
  match l with
  | [] => ret ()
  | (template, output) :: l' =>
      let* templateSource := readTextFile template in
      writeTextFile output (readmeText templateSource latestDraft) ;;
      fmtCommand output ;;
      updateReadmes l' latestDraft
  end.

(** The comparator of lines 220-225. *)
Definition compareCopyrights (a b : LicenseCopyright) : Z :=
  if negb (year a =? year b) then year a - year b
  else localeCompare C (draft a) (draft b).

(** Lines 226-233. [credits.slice(-1)] is an array of at most one string,
    and is printed as that string, or as nothing when it is empty. *)
Definition copyrightLine (c : LicenseCopyright) : string :=
  let initialCredits := removelast (credits c) in
  let lastCredit := default "" (last (credits c)) in
  pretty (year c) +:+ " [draft-" +:+ draft c +:+ "] " +:+ Js.join ", " initialCredits
    +:+ ", and " +:+ lastCredit +:+ ".".

(** The text put in place of [{COPYRIGHT}]. *)
Definition copyrightText (licenseCopyrights : list LicenseCopyright) : string :=
  Js.join (nl +:+ nl) (copyrightLine <$> Js.sort compareCopyrights licenseCopyrights).

Definition licenseText (template : string) (licenseCopyrights : list LicenseCopyright) :
    Outcome string :=
  formatMarkdown C
    (replace C (replace C template "{YEAR}" (pretty (fullYear inv)))
       "{COPYRIGHT}" (copyrightText licenseCopyrights))
    None.

Fixpoint copyLicense (dirs : list string) : M unit :=
  match dirs with
  | [] => ret ()
  | dir :: dirs' => copy licenseFilename (path_join dir "LICENSE.md") ;; copyLicense dirs'
  end.

Definition packageJsonText (latestDraft : string) : string :=
  packageJson inv (VERSION inv)
    ("./draft_" +:+ latestDraft +:+ ".js")
    ("./draft_" +:+ latestDraft +:+ ".d.ts")
    ((".", ("./draft_" +:+ latestDraft +:+ ".d.ts", "./draft_" +:+ latestDraft +:+ ".js")) ::
     ((λ draftId,
        let nodeDraftId := replaceAll C draftId "_" "-" in
        ("./draft-" +:+ nodeDraftId,
         ("./draft_" +:+ draftId +:+ ".d.ts", "./draft_" +:+ draftId +:+ ".js"))) <$> drafts))
  +:+ nl.

(** Lines 162-288: what follows the choice of the latest draft. *)
Definition publish (latestDraft : string) (licenseCopyrights : list LicenseCopyright) :
    M unit :=
  writeTextFile latestFilename (latestSource latestDraft) ;;
  updateReadmes readmeFilenames latestDraft ;;
  let* template := readTextFile (path_join FILE_TEMPLATES_DIR "LICENSE.template.md") in
  let* text := await (licenseText template licenseCopyrights) in
  writeTextFile licenseFilename text ;;
  copyLicense ALL_DIST_DIRS ;;
  writeTextFile packageJsonFilename (packageJsonText latestDraft) ;;
  writeTextFile versionFilename (versionSource (VERSION inv)).

(** Lines 137-288: what follows the loop. *)
Definition finish (v : Vars) : M unit :=
  writeChecksums (sortedChecksums (checksums v)) ;;
  match latestDraft drafts with
  | None => throw "TODO"
  | Some latestDraft => publish latestDraft (licenseCopyrights v)
  end.

(** The whole script. *)
Definition build : M unit :=
  let* checksums := importChecksums in
  let* modTemplateCode := readTextFile modTemplateFilename in
  let* v := processDrafts modTemplateCode drafts
              {| checksums := checksums; licenseCopyrights := [] |} in
  finish v.

(** A run from the files [files] and the ledger document [doc]. *)
Definition run (files : gmap string string) (doc : list (string * string)) :
    Outcome unit * World :=
  build {| fs := files; ledger := doc; console := []; written := [] |}.
End Build.

(** ** What a run does: worlds, steps and files *)

(** What the loop writes for draft [d]: the JSON definition, and the
    module, which is a generated source. *)
Definition draftWrite (d : string) (pt : string * string) : Prop :=
  pt.1 = jsonDefFilename d ∨
  (pt.1 = outputFilename d ∧ ∃ modCode, pt.2 = generatedSource modCode).

Definition logged (w : World) (lines : list string) : World :=
  {| fs := fs w; ledger := ledger w; console := console w ++ lines; written := written w |}.

(** The files written after the choice of the latest draft. *)
Definition publishedFilenames : list string :=
  readmeFilenames.*2 ++ [licenseFilename; packageJsonFilename; versionFilename].

Definition recorded (w : World) (o : Js.Obj) : World :=
  {| fs := fs w; ledger := o; console := console w; written := written w |}.

Definition initial (files : gmap string string) (doc : list (string * string)) : World :=
  {| fs := files; ledger := doc; console := []; written := [] |}.

Definition vars0 (doc : list (string * string)) : Vars :=
  {| checksums := Js.fromEntries doc; licenseCopyrights := [] |}.

(** The numeric prefix of a draft identifier, when line 155 finds one. *)
Definition numericPrefix (draftId : string) : option Z :=
  let n := Js.parseInt (Js.splitHead "-" draftId) in
  if Js.isInteger n then n else None.

(** The two lines at the head of a generated module. *)
Definition generatedMarker : string :=
  "// @generated" +:+ nl +:+
  "// This code is automatically generated. Manual editing is not recommended." +:+ nl.

(** Outside the paths [ps], the files of [w'] are those of [w]. *)
Definition sameFilesOutside (ps : list string) (w w' : World) : Prop :=
  ∀ p, p ∉ ps → fs w' !! p = fs w !! p.

(** The files written after the loop, with the copies of the LICENSE. *)
Definition publishedFiles : list string :=
  latestFilename :: publishedFilenames ++ ((λ dir, path_join dir "LICENSE.md") <$> ALL_DIST_DIRS).

Section Behaviour.
Context {Schema MessageText : Type}.
Variable C : Collaborators Schema MessageText.
Variable inv : Invocation.

(** The five ways the body of the loop ends for draft [d]. *)
Inductive DraftStep (tpl d : string) (v : Vars) (w : World) : Outcome Vars → World → Prop :=
| step_unreadable e :
    fileChecksum C (draftDefFilename d) w = (Throw e, w) →
    DraftStep tpl d v w (Throw e) w
| step_import_fails h e :
    fileChecksum C (draftDefFilename d) w = (Return h, w) →
    importDefault C (draftDefFilename d) = Throw e →
    DraftStep tpl d v w (Throw e) w
| step_skipped h spec :
    fileChecksum C (draftDefFilename d) w = (Return h, w) →
    importDefault C (draftDefFilename d) = Return spec →
    unchanged inv (checksums v) (draftDefRelativeFilename d) h = true →
    DraftStep tpl d v w
      (Return {| checksums := checksums v;
                 licenseCopyrights := licenseCopyrights v ++ [licenseCopyright spec] |})
      (logged w [skippingLine d])
| step_failed h spec e w' :
    fileChecksum C (draftDefFilename d) w = (Return h, w) →
    importDefault C (draftDefFilename d) = Return spec →
    unchanged inv (checksums v) (draftDefRelativeFilename d) h = false →
    regenerate C tpl d spec w = (Throw e, w') →
    DraftStep tpl d v w (Throw e) w'
| step_completed h spec w' :
    fileChecksum C (draftDefFilename d) w = (Return h, w) →
    importDefault C (draftDefFilename d) = Return spec →
    unchanged inv (checksums v) (draftDefRelativeFilename d) h = false →
    regenerate C tpl d spec w = (Return (), w') →
    DraftStep tpl d v w
      (Return {| checksums := Js.set (checksums v) (draftDefRelativeFilename d) h;
                 licenseCopyrights := licenseCopyrights v ++ [licenseCopyright spec] |})
      w'.

(** The three ways a run goes: the module template cannot be read, the
    loop throws, or the loop returns and the run goes on. *)
Inductive Run (files : gmap string string) (doc : list (string * string)) :
    Outcome unit → World → Prop :=
| run_no_template :
    files !! modTemplateFilename = None →
    Run files doc (Throw ("NotFound: " +:+ modTemplateFilename)) (initial files doc)
| run_loop_throws tpl e w' :
    files !! modTemplateFilename = Some tpl →
    processDrafts C inv tpl (drafts C inv) (vars0 doc) (initial files doc) = (Throw e, w') →
    Run files doc (Throw e) w'
| run_loop_returns tpl v w1 r w' :
    files !! modTemplateFilename = Some tpl →
    processDrafts C inv tpl (drafts C inv) (vars0 doc) (initial files doc) = (Return v, w1) →
    finish C inv v w1 = (r, w') →
    Run files doc r w'.

End Behaviour.


(** ** A concrete set of collaborators, for the examples

    [codeUnitCompare] orders strings by code units; on the draft identifiers
    and the ledger keys of the examples, made of digits, lower-case letters
    and the same punctuation at the same places, it agrees with
    [localeCompare]. *)

Definition codeUnitCompare (a b : string) : Z :=
  match String.compare a b with Lt => -1 | Eq => 0 | Gt => 1 end.

(** The first occurrence of a pattern is replaced; the texts of the examples
    hold no [$]. *)
Fixpoint replaceFirst (s pattern replacement : string) : string :=
  match s with
  | EmptyString => EmptyString
  | String c s' =>
      if Js.startsWith pattern s
      then replacement +:+
           String.substring (String.length pattern) (String.length s - String.length pattern) s
      else String c (replaceFirst s' pattern replacement)
  end.

Definition sampleSpec (draftId : string) : ValidationSpecDefinition unit :=
  {| S_draft := draftId;
     S_copyright := {| c_year := 2019; c_credits := ["IETF Trust"; "the authors"] |};
     S_license := "Permission is granted.";
     S_schema := () |}.

(** The definition of draft [bad] asks for a placeholder the template does
    not bind; every program compiles without diagnostics. The digest of the
    examples is not MD5: its bytes are the code units of the content. The
    formatters leave their input as it is, and so does [replaceAll]: the
    README templates of the examples hold no token. *)
Definition sample : Collaborators unit string := {|
  localeCompare := codeUnitCompare;
  md5 := λ content, Js.codeUnit <$> list_ascii_of_string content;
  importDefault := λ path,
    Return (sampleSpec (Js.splitHead "/" (String.substring 11 (String.length path - 11) path)));
  formatDefinitionDescriptions := λ d _, Return d;
  formatMarkdown := λ text _, Return text;
  expandSourcePlaceholders := λ _ template d,
    if String.eqb (S_draft d) "bad"
    then Throw "MissingPlaceholderBinding: UNKNOWN_FIELD"
    else Return template;
  JSON_stringify := λ d, S_draft d;
  denoFmt := λ text, Some text;
  createProgram := λ _ _ _,
    {| emitted := []; emitResult := {| emitSkipped := false; diagnostics := [] |};
       preEmitDiagnostics := [] |};
  flattenDiagnosticMessageText := λ m _, m;
  trim := λ s, s;
  replace := replaceFirst;
  replaceFn := replaceFirst;
  replaceAll := λ s _ _, s;
  toLocaleString := λ n, pretty n
|}.

Definition invocationIn (y : Z) (force : bool) (ids : list string) : Invocation := {|
  FORCE_REFRESH := force;
  globbed := ids;
  fullYear := y;
  VERSION := "1.0.0";
  packageJson := λ version main types _, version +:+ " " +:+ main +:+ " " +:+ types
|}.

Definition invocation : bool → list string → Invocation := invocationIn 2026.

Definition sampleFiles : gmap string string :=
  {[ ".src/mod_template.ts" := "export {};";
     ".src/draft/2019-09/definition.ts" := "a";
     ".src/draft/draft7/definition.ts" := "b";
     ".src/draft/bad/definition.ts" := "c";
     ".src/draft/9/definition.ts" := "d";
     ".src/draft/10/definition.ts" := "e";
     ".src/file_templates/README.deno.template.md" := "deno";
     ".src/file_templates/README.node.template.md" := "node";
     ".src/file_templates/LICENSE.template.md" := "{YEAR} {COPYRIGHT}" ]}.

Definition sampleWorld : World :=
  {| fs := {[ ".src/draft/draft7/definition.ts" := "b" ]};
     ledger := []; console := []; written := [] |}.

Definition sampleVars : Vars :=
  {| checksums := [(".src/draft/draft7/definition.ts", "62")]; licenseCopyrights := [] |}.

(** The run of [2019-09], [bad] and [draft7] from an empty ledger: the
    regeneration of [bad] throws. *)
Definition failingInvocation : Invocation := invocation false ["draft7"; "bad"; "2019-09"].

Definition failingRun : Outcome unit * World := run sample failingInvocation sampleFiles [].

Definition beforeFailure : Outcome Vars * World :=
  processDrafts sample failingInvocation "export {};" ["2019-09"]
    (vars0 []) (initial sampleFiles []).

Definition varsBeforeFailure : Vars :=
  match beforeFailure.1 with Return v => v | Throw _ => vars0 [] end.

(** A compiler that reports one warning, in line 3, column 5 of [mod.ts]. *)
Definition warningOnly : Program string := {|
  emitted := [("dist/node/mod.js", "export {};")];
  emitResult := {| emitSkipped := false; diagnostics := [] |};
  preEmitDiagnostics :=
    [ {| category := Warning;
         file := Some {| fileName := "mod.ts"; getLineAndCharacterOfPosition := λ _, (2, 4)%nat |};
         start := 17%nat;
         messageText := "unused label" |} ]
|}.

Definition warningCompiler : Collaborators unit string := {|
  localeCompare := localeCompare sample;
  md5 := md5 sample;
  importDefault := importDefault sample;
  formatDefinitionDescriptions := formatDefinitionDescriptions sample;
  formatMarkdown := formatMarkdown sample;
  expandSourcePlaceholders := expandSourcePlaceholders sample;
  JSON_stringify := JSON_stringify sample;
  denoFmt := denoFmt sample;
  createProgram := λ _ _ _, warningOnly;
  flattenDiagnosticMessageText := flattenDiagnosticMessageText sample;
  trim := trim sample;
  replace := replace sample;
  replaceFn := replaceFn sample;
  replaceAll := replaceAll sample;
  toLocaleString := toLocaleString sample
|}.

Definition completeRun : Outcome unit * World :=
  run sample (invocation false ["draft7"; "2019-09"]) sampleFiles [].

(** A run whose ledger has an entry for [draft4], a draft that is gone, and
    lists the entry of [draft7] first. *)
Definition staleLedger : list (string * string) :=
  [ (".src/draft/draft7/definition.ts", "62");
    (".src/draft/draft4/definition.ts", "00") ].

Definition staleRun : Outcome unit * World :=
  run sample (invocation false ["draft7"; "2019-09"]) sampleFiles staleLedger.

(** A run in which both drafts are unchanged. *)
Definition currentLedger : list (string * string) :=
  [ (".src/draft/2019-09/definition.ts", "61");
    (".src/draft/draft7/definition.ts", "62") ].




(** ** Predicates of the further properties *)

(** A character of a lower-case hexadecimal numeral. *)
Definition isLowerHex (c : ascii) : bool :=
  let u := Js.codeUnit c in
  ((48 <=? u) && (u <=? 57)) || ((97 <=? u) && (u <=? 102)).

Fixpoint stringForall (P : ascii → bool) (s : string) : bool :=
  match s with
  | EmptyString => true
  | String c s' => P c && stringForall P s'
  end.

(** A path under the source directory [.src]. *)
Definition inSrc (p : string) : bool := Js.startsWith ".src/" p.

(** The compiler emits no file under [.src] (line 128 gives it [NODE_DIR] as
    its [outDir]). *)
Definition emitsOutsideSrc {Schema MessageText : Type}
    (C : Collaborators Schema MessageText) : Prop :=
  ∀ sourceFile outputDir files,
    Forall (λ kv : string * string, inSrc kv.1 = false)
      (emitted (createProgram C sourceFile outputDir files)).

(** A comparator that tells apart any two different strings. *)
Definition distinguishes (cmp : string → string → Z) : Prop :=
  ∀ a b, cmp a b <= 0 → cmp b a <= 0 → a = b.

(** The files under [.src] are in [w'] as they are in [w]. *)
Definition sourcesKept (w w' : World) : Prop :=
  ∀ p, inSrc p = true → fs w' !! p = fs w !! p.

(** The files written after the alias of the latest draft. *)
Definition afterAlias : list string :=
  publishedFilenames ++ ((λ dir, path_join dir "LICENSE.md") <$> ALL_DIST_DIRS).

(** The loop of [completeRun]. *)
Definition completeLoop : Outcome Vars * World :=
  processDrafts sample (invocation false ["draft7"; "2019-09"]) "export {};"
    ["2019-09"; "draft7"] (vars0 []) (initial sampleFiles []).

Definition varsOfCompleteLoop : Vars :=
  match completeLoop.1 with Return v => v | Throw _ => vars0 [] end.

(** The run that follows [completeRun], with one draft less. *)
Definition rerun : Outcome unit * World :=
  run sample (invocation false ["2019-09"]) (fs completeRun.2) (ledger completeRun.2).

(** Collaborators with which no definition module can be imported. *)
Definition failingImport : Collaborators unit string := {|
  localeCompare := localeCompare sample;
  md5 := md5 sample;
  importDefault := λ _, Throw "SyntaxError";
  formatDefinitionDescriptions := formatDefinitionDescriptions sample;
  formatMarkdown := formatMarkdown sample;
  expandSourcePlaceholders := expandSourcePlaceholders sample;
  JSON_stringify := JSON_stringify sample;
  denoFmt := denoFmt sample;
  createProgram := createProgram sample;
  flattenDiagnosticMessageText := flattenDiagnosticMessageText sample;
  trim := trim sample;
  replace := replace sample;
  replaceFn := replaceFn sample;
  replaceAll := replaceAll sample;
  toLocaleString := toLocaleString sample
|}.

Definition failingImportRun : Outcome unit * World :=
  run failingImport (invocation false ["2019-09"; "draft7"]) sampleFiles staleLedger.








(** A ledger whose keys are array indices, and the run of [2019-09] on it. *)
Definition indexLedger : list (string * string) := [("10", "x"); ("9", "y")].

Definition indexRun : Outcome unit * World :=
  run sample (invocation false ["2019-09"]) sampleFiles indexLedger.

(** * Properties *)

(** ** The built-ins on examples *)

Example parseInt_examples :
  Js.parseInt "2019_09" = Some 2019 ∧ Js.parseInt "draft_07" = None ∧
  Js.parseInt "  +12px" = Some 12 ∧ Js.parseInt "-7" = Some (-7) ∧ Js.parseInt "" = None.
Proof. by split_and!. Qed.

Example hasNumericPrefix_examples :
  hasNumericPrefix "2020-12" = true ∧ hasNumericPrefix "2019_09" = true ∧
  hasNumericPrefix "draft7" = false ∧ hasNumericPrefix "-5" = false ∧
  hasNumericPrefix "7-rc" = true.
Proof. by split_and!. Qed.

Example sort_examples :
  Js.sort (λ a b : Z, a - b) [3; 1; 2; 1] = [1; 1; 2; 3] ∧
  Js.sort codeUnitCompare ["draft7"; "2020-12"; "2019-09"] = ["2019-09"; "2020-12"; "draft7"].
Proof. by split_and!. Qed.

Example object_examples :
  Js.fromEntries [("b", "1"); ("a", "2"); ("b", "3")] = [("b", "3"); ("a", "2")] ∧
  Js.fromEntries [("b", "1"); ("10", "x"); ("9", "y")] = [("9", "y"); ("10", "x"); ("b", "1")] ∧
  Js.arrayIndex "010" = None ∧ Js.arrayIndex "4294967295" = None ∧
  Js.arrayIndex ".src/draft/7/definition.ts" = None.
Proof. by split_and!. Qed.

Example byteHex_examples : byteHex 10 = "0a" ∧ byteHex 255 = "ff" ∧ byteHex 0 = "00".
Proof. by split_and!. Qed.

Example copyrightLine_example :
  copyrightLine {| draft := "2019-09"; year := 2019; credits := ["A"; "B"; "C"] |}
    = "2019 [draft-2019-09] A, B, and C.".
Proof. reflexivity. Qed.

(** ** Sorting *)

Section SortFacts.
Context {A : Type} (cmp : A → A → Z).

Lemma sortInsert_perm x l : Js.sortInsert cmp x l ≡ₚ x :: l.
Proof.
  induction l as [|y l IH]; simpl; [done|].
  destruct (cmp x y <=? 0); [done|].
  rewrite IH. apply Permutation_swap.
Qed.

Lemma sort_perm l : Js.sort cmp l ≡ₚ l.
Proof.
  induction l as [|x l IH]; simpl; [done|].
  fold (Js.sort cmp l). by rewrite sortInsert_perm, IH.
Qed.

Lemma sort_elem x l : x ∈ Js.sort cmp l ↔ x ∈ l.
Proof. by rewrite sort_perm. Qed.

Hypothesis consistent : Js.Consistent cmp.

Lemma sortInsert_sorted x l :
  StronglySorted (Js.notAfter cmp) l → StronglySorted (Js.notAfter cmp) (Js.sortInsert cmp x l).
Proof.
  induction 1 as [|y l Hl IH Hy]; simpl.
  - repeat constructor.
  - destruct (Z.leb_spec (cmp x y) 0) as [Hxy|Hxy].
    + constructor; [by constructor|].
      constructor; [done|].
      eapply Forall_impl; [exact Hy|].
      intros z Hz. eapply (Js.cmp_trans cmp consistent); eauto.
    + constructor; [done|].
      rewrite sortInsert_perm. constructor; [|done].
      destruct (Js.cmp_total cmp consistent x y); [lia|done].
Qed.

Lemma sort_sorted l : StronglySorted (Js.notAfter cmp) (Js.sort cmp l).
Proof.
  induction l as [|x l IH]; simpl; [constructor|].
  by apply sortInsert_sorted.
Qed.

Lemma sort_sorted_id l : StronglySorted (Js.notAfter cmp) l → Js.sort cmp l = l.
Proof.
  induction 1 as [|x l Hl IH Hx]; simpl; [done|].
  fold (Js.sort cmp l). rewrite IH.
  destruct Hx as [|y l' Hy _]; simpl; [done|].
  unfold Js.notAfter in Hy. by destruct (Z.leb_spec (cmp x y) 0); [|lia].
Qed.
End SortFacts.

(** [codeUnitCompare] is a consistent comparator. *)
Lemma codeUnitCompare_le a b : codeUnitCompare a b <= 0 ↔ String.le a b.
Proof.
  unfold codeUnitCompare, String.le, String.leb.
  destruct (String.compare a b); simpl; intuition (try lia; try done).
Qed.

Lemma codeUnitCompare_consistent : Js.Consistent codeUnitCompare.
Proof.
  split.
  - intros a b. rewrite !codeUnitCompare_le. apply (total String.le).
  - intros a b c. rewrite !codeUnitCompare_le. apply (transitivity (R := String.le)).
Qed.

(** ** Objects *)

Lemma eqb_string_dec (a b : string) : String.eqb a b = bool_decide (a = b).
Proof.
  destruct (String.eqb_spec a b);
    [by rewrite bool_decide_eq_true_2|by rewrite bool_decide_eq_false_2].
Qed.

Lemma get_None o k : Js.get o k = None ↔ k ∉ Js.keys o.
Proof.
  unfold Js.keys. induction o as [|[k' v] o IH]; simpl.
  - split; [intros _; apply not_elem_of_nil|done].
  - rewrite not_elem_of_cons, eqb_string_dec. case_bool_decide; naive_solver.
Qed.

Lemma get_Some_elem o k v : Js.get o k = Some v → (k, v) ∈ o.
Proof.
  induction o as [|[k' v'] o IH]; simpl; [done|].
  rewrite eqb_string_dec. case_bool_decide; intros; simplify_eq; [left|right; auto].
Qed.

Lemma get_elem_nodup o k v : NoDup (Js.keys o) → (k, v) ∈ o → Js.get o k = Some v.
Proof.
  unfold Js.keys. induction o as [|[k' v'] o IH]; simpl.
  - intros _ H. by apply elem_of_nil in H.
  - rewrite NoDup_cons, elem_of_cons, eqb_string_dec. intros [Hk Ho] [?|Hin]; simplify_eq.
    + by rewrite bool_decide_eq_true_2.
    + rewrite bool_decide_eq_false_2; [auto|].
      intros ->. apply Hk. apply list_elem_of_fmap. by exists (k, v).
Qed.

(** On objects, the value of a key does not depend on the order of the
    properties. *)
Lemma get_perm o1 o2 k : NoDup (Js.keys o1) → o1 ≡ₚ o2 → Js.get o1 k = Js.get o2 k.
Proof.
  intros Hnd Hp.
  assert (NoDup (Js.keys o2)) as Hnd2 by (unfold Js.keys in *; by rewrite <-Hp).
  destruct (Js.get o1 k) as [v|] eqn:H1.
  - symmetry. apply get_elem_nodup; [done|]. rewrite <-Hp. by apply get_Some_elem.
  - symmetry. apply get_None. apply get_None in H1. unfold Js.keys in *. by rewrite <-Hp.
Qed.

Lemma get_app o1 o2 k :
  Js.get (o1 ++ o2) k = match Js.get o1 k with Some v => Some v | None => Js.get o2 k end.
Proof. induction o1 as [|[k' v'] o1 IH]; simpl; [done|]. by destruct (String.eqb k' k). Qed.

Lemma update_keys o k v : Js.keys (Js.update o k v) = Js.keys o.
Proof.
  unfold Js.keys. induction o as [|[k' v'] o IH]; simpl; [done|].
  rewrite eqb_string_dec. case_bool_decide; simplify_eq; simpl; [done|]. by f_equal.
Qed.

Lemma get_update o k v k' :
  Js.get (Js.update o k v) k' =
    if decide (k = k') then (if Js.get o k is Some _ then Some v else None) else Js.get o k'.
Proof.
  induction o as [|[k0 v0] o IH]; simpl; [by case_decide|].
  rewrite !eqb_string_dec. repeat (case_bool_decide || case_decide || simpl || simplify_eq);
    try done; rewrite ?eqb_string_dec in *;
    repeat (case_bool_decide || case_decide || simpl || simplify_eq); try done.
  all: rewrite IH; repeat (case_bool_decide || case_decide || simpl || simplify_eq); done.
Qed.

Lemma defineIndex_perm o n k v : Js.defineIndex o n k v ≡ₚ (k, v) :: o.
Proof.
  induction o as [|[k' v'] o IH]; simpl; [done|].
  destruct (Js.arrayIndex k'); [|done].
  destruct (_ <? _); [|done]. rewrite IH. apply Permutation_swap.
Qed.

Lemma set_keys_perm o k v :
  Js.keys (Js.set o k v) ≡ₚ if Js.get o k is Some _ then Js.keys o else k :: Js.keys o.
Proof.
  unfold Js.set. destruct (Js.get o k) eqn:Hg.
  - by rewrite update_keys.
  - destruct (Js.arrayIndex k).
    + unfold Js.keys. by rewrite defineIndex_perm.
    + unfold Js.keys. rewrite fmap_app. simpl. by rewrite Permutation_app_comm.
Qed.

Lemma set_keys_elem o k v k' : k' ∈ Js.keys (Js.set o k v) ↔ k' = k ∨ k' ∈ Js.keys o.
Proof.
  rewrite set_keys_perm. destruct (Js.get o k) eqn:Hg.
  - split; [auto|]. intros [->|]; [|done].
    destruct (decide (k ∈ Js.keys o)) as [|Hn]; [done|]. apply get_None in Hn. congruence.
  - by rewrite elem_of_cons.
Qed.

Lemma set_nodup o k v : NoDup (Js.keys o) → NoDup (Js.keys (Js.set o k v)).
Proof.
  intros Hnd. rewrite set_keys_perm. destruct (Js.get o k) eqn:Hg; [done|].
  apply NoDup_cons. split; [by apply get_None|done].
Qed.

Lemma get_set o k v k' :
  NoDup (Js.keys o) →
  Js.get (Js.set o k v) k' = if decide (k = k') then Some v else Js.get o k'.
Proof.
  intros Hnd. unfold Js.set. destruct (Js.get o k) eqn:Hg.
  - rewrite get_update, Hg. done.
  - assert (NoDup (Js.keys ((k, v) :: o))) as Hnd'.
    { simpl. apply NoDup_cons. split; [by apply get_None|done]. }
    assert (Js.get ((k, v) :: o) k' = if decide (k = k') then Some v else Js.get o k') as <-.
    { simpl. rewrite eqb_string_dec. by case_bool_decide; case_decide. }
    destruct (Js.arrayIndex k).
    + symmetry. apply get_perm; [done|]. by rewrite defineIndex_perm.
    + symmetry. apply get_perm; [done|]. simpl. apply Permutation_cons_append.
Qed.

Lemma fold_set_nodup l o :
  NoDup (Js.keys o) → NoDup (Js.keys (fold_left (λ o kv, Js.set o kv.1 kv.2) l o)).
Proof. revert o. induction l as [|[k v] l IH]; simpl; auto using set_nodup. Qed.

Lemma fromEntries_nodup l : NoDup (Js.keys (Js.fromEntries l)).
Proof. apply fold_set_nodup. constructor. Qed.

Lemma fold_set_keys l o k :
  k ∈ Js.keys (fold_left (λ o kv, Js.set o kv.1 kv.2) l o) ↔ k ∈ Js.keys o ∨ k ∈ l.*1.
Proof.
  revert o. induction l as [|[k' v] l IH]; intros o; simpl.
  - rewrite elem_of_nil. naive_solver.
  - rewrite IH, set_keys_elem, elem_of_cons. naive_solver.
Qed.

Lemma fromEntries_keys l k : k ∈ Js.keys (Js.fromEntries l) ↔ k ∈ l.*1.
Proof.
  unfold Js.fromEntries. rewrite fold_set_keys. unfold Js.keys. simpl.
  rewrite elem_of_nil. naive_solver.
Qed.

(** Without array indices among new keys, properties are added at the end. *)
Lemma fold_set_append l o :
  NoDup (Js.keys o ++ l.*1) → Forall (λ k, Js.arrayIndex k = None) l.*1 →
  fold_left (λ o kv, Js.set o kv.1 kv.2) l o = o ++ l.
Proof.
  revert o. induction l as [|[k v] l IH]; intros o Hnd Hidx; simpl.
  - by rewrite app_nil_r.
  - simpl in *. apply Forall_cons in Hidx as [Hk Hidx].
    assert (Js.set o k v = o ++ [(k, v)]) as ->.
    { unfold Js.set. rewrite Hk.
      assert (Js.get o k = None) as ->; [|done].
      apply get_None. apply NoDup_app in Hnd as (_ & Hd & _).
      intros Hin. apply (Hd _ Hin). left. }
    rewrite IH; [by rewrite <-app_assoc| |done].
    unfold Js.keys in *. rewrite fmap_app. simpl. by rewrite <-app_assoc.
Qed.

Lemma fromEntries_id l :
  NoDup l.*1 → Forall (λ k, Js.arrayIndex k = None) l.*1 → Js.fromEntries l = l.
Proof. intros. unfold Js.fromEntries. by rewrite fold_set_append. Qed.

Lemma fold_set_get l o k :
  NoDup (Js.keys o ++ l.*1) →
  Js.get (fold_left (λ o kv, Js.set o kv.1 kv.2) l o) k = Js.get (o ++ l) k.
Proof.
  revert o. induction l as [|[k' v] l IH]; intros o Hnd; simpl.
  - by rewrite app_nil_r.
  - simpl in Hnd.
    assert (NoDup (Js.keys o)) as Ho by (by apply NoDup_app in Hnd as (? & _ & _)).
    assert (Js.get o k' = None) as Hk'.
    { apply get_None. apply NoDup_app in Hnd as (_ & Hd & _).
      intros Hin. apply (Hd _ Hin). left. }
    rewrite IH.
    + rewrite !get_app, get_set by done. simpl. rewrite eqb_string_dec.
      case_decide; simplify_eq.
      * rewrite Hk'. by rewrite bool_decide_eq_true_2.
      * by rewrite bool_decide_eq_false_2.
    + rewrite set_keys_perm, Hk'. simpl. by rewrite Permutation_middle.
Qed.

Lemma fromEntries_get l k : NoDup l.*1 → Js.get (Js.fromEntries l) k = Js.get l k.
Proof. intros. unfold Js.fromEntries. by rewrite fold_set_get. Qed.

(** ** Strings *)

Lemma app_String c s t : String c s +:+ t = String c (s +:+ t).
Proof. done. Qed.

Lemma app_length s t : String.length (s +:+ t) = (String.length s + String.length t)%nat.
Proof. induction s as [|c s IH]; [done|]. rewrite app_String. simpl. by rewrite IH. Qed.

Lemma app_inj_suffix t s1 s2 : s1 +:+ t = s2 +:+ t → s1 = s2.
Proof.
  revert s2. induction s1 as [|c s1 IH]; intros [|c2 s2] H; [done| | |].
  - apply (f_equal String.length) in H. rewrite !app_length in H. simpl in H. lia.
  - apply (f_equal String.length) in H. rewrite !app_length in H. simpl in H. lia.
  - rewrite !app_String in H. injection H as -> H. f_equal. by apply IH.
Qed.

Lemma draftDefFilename_inj d1 d2 : draftDefFilename d1 = draftDefFilename d2 → d1 = d2.
Proof.
  unfold draftDefFilename, path_join. intros H%app_inj_suffix.
  by do 2 apply (inj (String.append _)) in H.
Qed.

Lemma completeLine_inj d1 d2 : completeLine d1 = completeLine d2 → d1 = d2.
Proof.
  unfold completeLine. intros H%(inj (String.append _)). by apply app_inj_suffix in H.
Qed.

Lemma skippingLine_inj d1 d2 : skippingLine d1 = skippingLine d2 → d1 = d2.
Proof.
  unfold skippingLine. intros H%(inj (String.append _)). by apply app_inj_suffix in H.
Qed.

Lemma skipping_not_complete d1 d2 : skippingLine d1 ≠ completeLine d2.
Proof. unfold skippingLine, completeLine. rewrite !app_String. discriminate. Qed.

Lemma draftDefFilename_not_index d : Js.arrayIndex (draftDefFilename d) = None.
Proof. reflexivity. Qed.

(** ** The effects of the script *)

Section BuildFacts.
Context {Schema MessageText : Type}.
Variable C : Collaborators Schema MessageText.
Variable inv : Invocation.

Lemma fileChecksum_world file w r w' : fileChecksum C file w = (r, w') → w' = w.
Proof.
  unfold fileChecksum, bind, readTextFile, ret. intros H.
  destruct (fs w !! file); by simplify_eq.
Qed.

Lemma compileTypeScript_effects src out w r w' :
  compileTypeScript C src out w = (r, w') →
  ledger w' = ledger w ∧ written w' = written w ∧ console w' = console w.
Proof.
  unfold compileTypeScript. intros H.
  destruct (checkDiagnostics C _); unfold await, ret, throw in H; by simplify_eq.
Qed.

Lemma fmtCommand_effects filename w r w' :
  fmtCommand C filename w = (r, w') →
  r = Return () ∧ ledger w' = ledger w ∧ written w' = written w ∧ console w' = console w.
Proof. unfold fmtCommand. intros H. repeat case_match; by simplify_eq. Qed.

Lemma bind_await {A B} (o : Outcome A) (k : A → M B) w :
  bind (await o) k w = match o with Return a => k a w | Throw e => (Throw e, w) end.
Proof. by destruct o. Qed.

Lemma bind_writeTextFile {B} p t (k : unit → M B) w :
  bind (writeTextFile p t) k w =
    k () {| fs := <[p := t]> (fs w); ledger := ledger w; console := console w;
            written := written w ++ [(p, t)] |}.
Proof. done. Qed.

Ltac quiet :=
  split_and!; [done|exists []; by rewrite app_nil_r|by rewrite app_nil_r].

Lemma regenerate_effects tpl d spec w r w' :
  regenerate C tpl d spec w = (r, w') →
  ledger w' = ledger w ∧
  (∃ ws, written w' = written w ++ ws ∧ Forall (draftWrite d) ws) ∧
  console w' = console w ++ (if r is Return _ then [completeLine d] else []).
Proof.
  unfold regenerate. intros H.
  rewrite bind_await in H.
  destruct (formatDefinitionDescriptions C spec 75) as [draftSpec|e]; simplify_eq; [|quiet].
  rewrite bind_await in H.
  destruct (formatMarkdown C _ _) as [lic|e]; simplify_eq; [|quiet].
  rewrite bind_await in H.
  destruct (formatDefinitionDescriptions C spec 100000) as [jsonDef|e]; simplify_eq; [|quiet].
  rewrite bind_writeTextFile, bind_await in H.
  assert (draftWrite d (jsonDefFilename d, JSON_stringify C jsonDef)) as Hjson by (by left).
  destruct (expandSourcePlaceholders C _ _ _) as [modCode|e]; simplify_eq/=;
    [|split_and!; [done|eexists [_]; split; [done|by apply Forall_singleton]|by rewrite app_nil_r]].
  rewrite bind_writeTextFile in H. unfold bind in H.
  assert (draftWrite d (outputFilename d, generatedSource modCode)) as Hmod.
  { right. split; [done|by eexists]. }
  destruct (fmtCommand C _ _) as [r5 w5] eqn:H5.
  apply fmtCommand_effects in H5 as (-> & Hl5 & Hw5 & Hc5). simpl in *.
  destruct (compileTypeScript C _ _ _) as [r6 w6] eqn:H6.
  apply compileTypeScript_effects in H6 as (Hl6 & Hw6 & Hc6).
  destruct r6; simplify_eq/=.
  - unfold console_log in H. simplify_eq/=.
    split_and!; [congruence| |congruence].
    exists [(jsonDefFilename d, JSON_stringify C jsonDef);
            (outputFilename d, generatedSource modCode)].
    rewrite Hw6, Hw5, <-app_assoc. split; [done|].
    apply Forall_cons; split; [done|]. by apply Forall_singleton.
  - split_and!; [congruence| |rewrite app_nil_r; congruence].
    exists [(jsonDefFilename d, JSON_stringify C jsonDef);
            (outputFilename d, generatedSource modCode)].
    rewrite Hw6, Hw5, <-app_assoc. split; [done|].
    apply Forall_cons; split; [done|]. by apply Forall_singleton.
Qed.

(** *** One turn of the loop *)

Lemma processDraft_step tpl d v w r w' :
  processDraft C inv tpl d v w = (r, w') → DraftStep C inv tpl d v w r w'.
Proof.
  unfold processDraft. intros H. unfold bind at 1 in H.
  destruct (fileChecksum C (draftDefFilename d) w) as [[h|e] w1] eqn:Hsum;
    pose proof (fileChecksum_world _ _ _ _ Hsum) as ->; simplify_eq;
    [|by apply step_unreadable].
  rewrite bind_await in H.
  destruct (importDefault C (draftDefFilename d)) as [spec|e] eqn:Himp; simplify_eq;
    [|by eapply step_import_fails].
  destruct (unchanged inv _ _ h) eqn:Hun.
  - unfold bind, console_log, ret in H. simplify_eq. by eapply step_skipped.
  - unfold bind in H.
    destruct (regenerate C tpl d spec w) as [[[]|e] w2] eqn:Hreg; unfold ret in H; simplify_eq.
    + by eapply step_completed.
    + by eapply step_failed.
Qed.

Lemma step_processDraft tpl d v w r w' :
  DraftStep C inv tpl d v w r w' → processDraft C inv tpl d v w = (r, w').
Proof.
  unfold processDraft. destruct 1 as [e Hs|h e Hs Hi|h spec Hs Hi Hu|h spec e w' Hs Hi Hu Hr
    |h spec w' Hs Hi Hu Hr]; unfold bind at 1; rewrite Hs; try done;
    rewrite bind_await, Hi; try done; rewrite Hu; try done;
    unfold bind; by rewrite Hr.
Qed.

Lemma DraftStep_effects tpl d v w r w' :
  DraftStep C inv tpl d v w r w' →
  ledger w' = ledger w ∧
  (∃ ws, written w' = written w ++ ws ∧ Forall (draftWrite d) ws) ∧
  (∃ ls, console w' = console w ++ ls ∧
         Forall (λ l, l = skippingLine d ∨ l = completeLine d) ls).
Proof.
  destruct 1 as [e Hs|h e Hs Hi|h spec Hs Hi Hu|h spec e w' Hs Hi Hu Hr|h spec w' Hs Hi Hu Hr].
  1,2: split_and!; [done|exists []; by rewrite app_nil_r|exists []; by rewrite app_nil_r].
  - split_and!; [done|exists []; by rewrite app_nil_r|].
    exists [skippingLine d]. split; [done|]. apply Forall_singleton. by left.
  - apply regenerate_effects in Hr as (? & ? & ?).
    split_and!; [done..|]. by exists [].
  - apply regenerate_effects in Hr as (? & ? & ?).
    split_and!; [done..|]. exists [completeLine d]. split; [done|].
    apply Forall_singleton. by right.
Qed.

(** *** The loop *)

Lemma processDrafts_app tpl pre post v w :
  processDrafts C inv tpl (pre ++ post) v w =
    bind (processDrafts C inv tpl pre v) (processDrafts C inv tpl post) w.
Proof.
  revert v w. induction pre as [|d pre IH]; intros v w; simpl; [done|].
  unfold bind in *. destruct (processDraft C inv tpl d v w) as [[v1|e] w1]; [|done].
  by rewrite IH.
Qed.

Lemma processDrafts_effects tpl ds v w r w' :
  processDrafts C inv tpl ds v w = (r, w') →
  ledger w' = ledger w ∧
  (∃ ws, written w' = written w ++ ws ∧
         Forall (λ pt, ∃ d, d ∈ ds ∧ draftWrite d pt) ws) ∧
  (∃ ls, console w' = console w ++ ls ∧
         Forall (λ l, ∃ d, d ∈ ds ∧ (l = skippingLine d ∨ l = completeLine d)) ls).
Proof.
  revert v w. induction ds as [|d ds IH]; intros v w; simpl.
  - unfold ret. intros ?; simplify_eq.
    split_and!; [done|exists []; by rewrite app_nil_r|exists []; by rewrite app_nil_r].
  - unfold bind. destruct (processDraft C inv tpl d v w) as [[v1|e1] w1] eqn:Hd;
      apply processDraft_step, DraftStep_effects in Hd
        as (Hl & (ws & Hws & Hwsd) & (ls & Hls & Hlsd)).
    + intros (Hl' & (ws' & Hws' & Hwsd') & (ls' & Hls' & Hlsd'))%IH.
      split_and!; [congruence| |].
      * exists (ws ++ ws'). rewrite Hws', Hws, <-app_assoc. split; [done|].
        apply Forall_app. split; (eapply Forall_impl; [eassumption|]); simpl.
        -- intros pt ?. exists d. split; [left|done].
        -- intros pt (d' & ? & ?). exists d'. split; [by right|done].
      * exists (ls ++ ls'). rewrite Hls', Hls, <-app_assoc. split; [done|].
        apply Forall_app. split; (eapply Forall_impl; [eassumption|]); simpl.
        -- intros l ?. exists d. split; [left|done].
        -- intros l (d' & ? & ?). exists d'. split; [by right|done].
    + intros ?; simplify_eq. split_and!; [done| |].
      * exists ws. split; [done|]. eapply Forall_impl; [eassumption|]; simpl.
        intros pt ?. exists d. split; [left|done].
      * exists ls. split; [done|]. eapply Forall_impl; [eassumption|]; simpl.
        intros l ?. exists d. split; [left|done].
Qed.

(** When the loop returns: the copyrights of all drafts have been
    collected, and a ledger entry has changed only for a draft that was
    regenerated to its end. *)
Lemma processDrafts_returns tpl ds v w v' w' :
  processDrafts C inv tpl ds v w = (Return v', w') →
  NoDup (Js.keys (checksums v)) →
  NoDup (Js.keys (checksums v')) ∧
  (∃ specs,
      Forall2 (λ d s, importDefault C (draftDefFilename d) = Return s) ds specs ∧
      licenseCopyrights v' = licenseCopyrights v ++ (licenseCopyright <$> specs)) ∧
  (∀ k, Js.get (checksums v') k ≠ Js.get (checksums v) k →
        ∃ d, d ∈ ds ∧ k = draftDefRelativeFilename d ∧ completeLine d ∈ console w') ∧
  (∀ k, k ∈ Js.keys (checksums v) → k ∈ Js.keys (checksums v')) ∧
  (∀ k, k ∈ Js.keys (checksums v') →
        k ∈ Js.keys (checksums v) ∨ ∃ d, d ∈ ds ∧ k = draftDefRelativeFilename d).
Proof.
  revert v w. induction ds as [|d ds IH]; intros v w; simpl.
  - unfold ret. intros ? Hnd; simplify_eq. split_and!; [done| |done|done|by left].
    exists []. split; [constructor|by rewrite app_nil_r].
  - unfold bind. destruct (processDraft C inv tpl d v w) as [[v1|e1] w1] eqn:Hd; [|done].
    intros Hrest Hnd. apply processDraft_step in Hd.
    pose proof (processDrafts_effects _ _ _ _ _ _ Hrest) as (_ & _ & (ls & Hls & _)).
    assert (NoDup (Js.keys (checksums v1)) ∧
            (∃ spec, importDefault C (draftDefFilename d) = Return spec ∧
               licenseCopyrights v1 = licenseCopyrights v ++ [licenseCopyright spec]) ∧
            (∀ k, Js.get (checksums v1) k ≠ Js.get (checksums v) k →
                  k = draftDefRelativeFilename d ∧ completeLine d ∈ console w1) ∧
            (∀ k, k ∈ Js.keys (checksums v1) ↔
                  k ∈ Js.keys (checksums v) ∨
                  (k = draftDefRelativeFilename d ∧ checksums v1 ≠ checksums v)))
      as (Hnd1 & (spec & Hspec & Hlic) & Hget & Hkeys).
    { inversion Hd as [| |h spec Hs Hi Hu|?|h spec w2 Hs Hi Hu Hr]; subst; simpl.
      - split_and!; [done|by exists spec|done|naive_solver].
      - apply regenerate_effects in Hr as (_ & _ & Hc).
        split_and!; [by apply set_nodup|by exists spec| |].
        + intros k. rewrite get_set by done. case_decide; [|done]. subst. intros _.
          split; [done|]. rewrite Hc. apply elem_of_app. right. left.
        + intros k. rewrite set_keys_elem. split; [|naive_solver].
          intros [->|?]; [|by left].
          destruct (decide (draftDefRelativeFilename d ∈ Js.keys (checksums v)));
            [by left|right]. split; [done|]. intros Heq.
          assert (draftDefRelativeFilename d ∈ Js.keys (checksums v)); [|done].
          rewrite <-Heq. apply set_keys_elem. by left. }
    destruct (IH _ _ Hrest Hnd1) as (Hnd' & (specs & Hspecs & Hlic') & Hget' & Hk1 & Hk2).
    split_and!; [done| | | |].
    + exists (spec :: specs). split; [by constructor|].
      rewrite Hlic', Hlic, <-app_assoc. done.
    + intros k Hk.
      destruct (decide (Js.get (checksums v') k = Js.get (checksums v1) k)) as [Heq|Hne].
      * rewrite Heq in Hk. apply Hget in Hk as [-> Hin]. exists d.
        split_and!; [left|done|]. rewrite Hls. apply elem_of_app. by left.
      * apply Hget' in Hne as (d' & ? & ? & ?). exists d'. split_and!; [by right|done..].
    + intros k Hk. apply Hk1, Hkeys. by left.
    + intros k [Hk|(d' & ? & ?)]%Hk2.
      * apply Hkeys in Hk as [?|[-> _]]; [by left|right]. exists d. split; [left|done].
      * right. exists d'. split; [by right|done].
Qed.

(** A loop in which every draft is unchanged only logs. *)
Lemma processDrafts_unchanged tpl ds v w :
  Forall (λ d, ∃ h spec,
    fileChecksum C (draftDefFilename d) w = (Return h, w) ∧
    importDefault C (draftDefFilename d) = Return spec ∧
    unchanged inv (checksums v) (draftDefRelativeFilename d) h = true) ds →
  ∃ lic, processDrafts C inv tpl ds v w =
    (Return {| checksums := checksums v; licenseCopyrights := lic |},
     logged w (skippingLine <$> ds)).
Proof.
  revert v w. induction ds as [|d ds IH]; intros v w Hall.
  - exists (licenseCopyrights v). simpl. unfold ret, logged. destruct v, w; simpl.
    by rewrite app_nil_r.
  - apply Forall_cons in Hall as [(h & spec & Hs & Hi & Hu) Hall].
    pose proof (step_processDraft tpl d v w _ _ (step_skipped C inv tpl d v w h spec Hs Hi Hu)) as Hd.
    destruct (IH {| checksums := checksums v;
                    licenseCopyrights := licenseCopyrights v ++ [licenseCopyright spec] |}
                (logged w [skippingLine d])) as [lic Hrest].
    { eapply Forall_impl; [exact Hall|]. simpl. intros d' (h' & spec' & Hs' & ? & ?).
      exists h', spec'. split_and!; [|done..].
      unfold fileChecksum, bind, readTextFile in *. simpl.
      destruct (fs w !! draftDefFilename d'); unfold ret in *; by simplify_eq. }
    exists lic. simpl. unfold bind. rewrite Hd, Hrest. simpl. f_equal.
    unfold logged; simpl. by rewrite <-app_assoc.
Qed.

(** *** After the loop *)

Lemma bind_readTextFile {B} p (k : string → M B) w :
  bind (readTextFile p) k w =
    match fs w !! p with
    | Some t => k t w
    | None => (Throw ("NotFound: " +:+ p), w)
    end.
Proof. unfold bind, readTextFile. by destruct (fs w !! p). Qed.

Lemma updateReadmes_effects l latest w r w' :
  updateReadmes C inv l latest w = (r, w') →
  ledger w' = ledger w ∧ console w' = console w ∧
  ∃ ws, written w' = written w ++ ws ∧ Forall (λ pt, pt.1 ∈ l.*2) ws.
Proof.
  revert w. induction l as [|[template output] l IH]; intros w; simpl.
  - unfold ret. intros ?; simplify_eq. split_and!; [done..|].
    exists []. by rewrite app_nil_r.
  - rewrite bind_readTextFile. destruct (fs w !! template) as [t|]; intros H; simplify_eq;
      [|split_and!; [done..|]; exists []; by rewrite app_nil_r].
    rewrite bind_writeTextFile in H. unfold bind in H.
    destruct (fmtCommand C _ _) as [r1 w1] eqn:H1.
    apply fmtCommand_effects in H1 as (-> & Hl1 & Hw1 & Hc1). simpl in *.
    apply IH in H as (Hl & Hc & (ws & Hws & Hall)).
    split_and!; [congruence..|].
    exists ((output, readmeText C inv t latest) :: ws).
    rewrite Hws, Hw1, <-app_assoc. split; [done|].
    apply Forall_cons. split; [left|].
    eapply Forall_impl; [exact Hall|]. intros pt ?. by right.
Qed.

Lemma copyLicense_effects dirs w r w' :
  copyLicense dirs w = (r, w') →
  ledger w' = ledger w ∧ console w' = console w ∧ written w' = written w.
Proof.
  revert w. induction dirs as [|dir dirs IH]; intros w; simpl.
  - unfold ret. by intros ?; simplify_eq.
  - unfold bind, copy. destruct (fs w !! licenseFilename); intros H; simplify_eq; [|done].
    by apply IH in H as (? & ? & ?).
Qed.

Lemma publish_effects latest lic w r w' :
  publish C inv latest lic w = (r, w') →
  ledger w' = ledger w ∧ console w' = console w ∧
  ∃ ws, written w' = written w ++ (latestFilename, latestSource latest) :: ws ∧
        Forall (λ pt, pt.1 ∈ publishedFilenames) ws ∧
        (r = Return () →
         ∃ template text,
           licenseText C inv template lic = Return text ∧
           (licenseFilename, text) ∈ ws ∧
           (versionFilename, versionSource (VERSION inv)) ∈ ws).
Proof.
  unfold publish. rewrite bind_writeTextFile. unfold bind at 1.
  destruct (updateReadmes C inv _ _ _) as [r1 w1] eqn:H1.
  apply updateReadmes_effects in H1 as (Hl1 & Hc1 & (ws1 & Hw1 & Hall1)).
  simpl in Hl1, Hc1, Hw1.
  assert (Forall (λ pt : string * string, pt.1 ∈ publishedFilenames) ws1) as Hall1'.
  { eapply Forall_impl; [exact Hall1|]. intros pt ?. apply elem_of_app. by left. }
  destruct r1 as [[]|e1]; intros H; simplify_eq;
    [|split_and!; [done..|]; exists ws1; rewrite Hw1, <-app_assoc; split_and!; done].
  rewrite bind_readTextFile in H.
  destruct (fs w1 !! _) as [template|]; simplify_eq;
    [|split_and!; [done..|]; exists ws1; rewrite Hw1, <-app_assoc; split_and!; done].
  rewrite bind_await in H.
  destruct (licenseText C inv template lic) as [text|e] eqn:Htext; simplify_eq;
    [|split_and!; [done..|]; exists ws1; rewrite Hw1, <-app_assoc; split_and!; done].
  rewrite bind_writeTextFile in H. unfold bind at 1 in H.
  destruct (copyLicense _ _) as [r2 w2] eqn:H2.
  apply copyLicense_effects in H2 as (Hl2 & Hc2 & Hw2). simpl in Hl2, Hc2, Hw2.
  assert (∀ p, p ∈ [licenseFilename; packageJsonFilename; versionFilename] →
               p ∈ publishedFilenames) as Hin.
  { intros p ?. apply elem_of_app. by right. }
  destruct r2 as [[]|e2]; simplify_eq.
  - rewrite !bind_writeTextFile in H. unfold writeTextFile in H. simplify_eq/=.
    split_and!; [congruence..|].
    exists (ws1 ++ [(licenseFilename, text);
                    (packageJsonFilename, packageJsonText C inv latest);
                    (versionFilename, versionSource (VERSION inv))]).
    rewrite Hw2, Hw1, <-!app_assoc. split_and!; [done| |].
    + apply Forall_app. split; [done|].
      repeat (apply Forall_cons; split; [apply Hin; set_solver|]). apply Forall_nil_2.
    + intros _. exists template, text. split_and!; [done|set_solver..].
  - split_and!; [congruence..|].
    exists (ws1 ++ [(licenseFilename, text)]).
    rewrite Hw2, Hw1, <-!app_assoc. split_and!; [done| |done].
    apply Forall_app. split; [done|].
    apply Forall_singleton, Hin. set_solver.
Qed.

Lemma finish_cases v w :
  finish C inv v w =
    match latestDraft (drafts C inv) with
    | None => (Throw "TODO", recorded w (sortedChecksums C (checksums v)))
    | Some latest =>
        publish C inv latest (licenseCopyrights v)
          (recorded w (sortedChecksums C (checksums v)))
    end.
Proof. unfold finish, bind, writeChecksums, throw. by destruct (latestDraft _). Qed.

Lemma finish_effects v w r w' :
  finish C inv v w = (r, w') →
  ledger w' = sortedChecksums C (checksums v) ∧ console w' = console w.
Proof.
  rewrite finish_cases. destruct (latestDraft _).
  - by intros (? & ? & _)%publish_effects.
  - by intros ?; simplify_eq.
Qed.

(** *** The whole run *)

Lemma run_Run files doc r w' : run C inv files doc = (r, w') ↔ Run C inv files doc r w'.
Proof.
  unfold run, build, bind at 1, importChecksums. simpl.
  rewrite bind_readTextFile. simpl. fold (initial files doc). fold (vars0 doc).
  split.
  - destruct (files !! modTemplateFilename) as [tpl|] eqn:Htpl.
    + unfold bind.
      destruct (processDrafts C inv tpl _ _ _) as [[v|e] w1] eqn:Hloop; intros H; simplify_eq.
      * by eapply run_loop_returns.
      * by eapply run_loop_throws.
    + intros ?; simplify_eq. by apply run_no_template.
  - destruct 1 as [Htpl|tpl e w' Htpl Hloop|tpl v w1 r w' Htpl Hloop Hfin]; rewrite Htpl;
      [done|unfold bind; by rewrite Hloop..].
Qed.
End BuildFacts.

(** ** The ledger *)

Section Ledger.
Context {Schema MessageText : Type}.
Variable C : Collaborators Schema MessageText.
Variable inv : Invocation.

Lemma sortedChecksums_nodup o : NoDup (Js.keys (sortedChecksums C o)).
Proof. apply fromEntries_nodup. Qed.

Lemma sorted_entries_nodup o :
  NoDup (Js.keys o) → NoDup (Js.sort (λ a b, localeCompare C a.1 b.1) o).*1.
Proof. intros. by rewrite sort_perm. Qed.

(** Sorting the ledger keeps the value of every key. *)
Lemma sortedChecksums_get o k :
  NoDup (Js.keys o) → Js.get (sortedChecksums C o) k = Js.get o k.
Proof.
  intros Hnd. unfold sortedChecksums.
  rewrite fromEntries_get by by apply sorted_entries_nodup.
  symmetry. apply get_perm; [done|]. by rewrite sort_perm.
Qed.

(** What the next import of the ledger document reads for a key. *)
Lemma reimport_sortedChecksums_get o k :
  NoDup (Js.keys o) → Js.get (Js.fromEntries (sortedChecksums C o)) k = Js.get o k.
Proof.
  intros Hnd. rewrite fromEntries_get by apply sortedChecksums_nodup.
  by apply sortedChecksums_get.
Qed.

Lemma sortedChecksums_keys o k :
  k ∈ Js.keys (sortedChecksums C o) ↔ k ∈ Js.keys o.
Proof.
  unfold sortedChecksums. rewrite fromEntries_keys. unfold Js.keys. by rewrite sort_perm.
Qed.

Lemma unchanged_true o key h :
  unchanged inv o key h = true ↔ FORCE_REFRESH inv = false ∧ Js.get o key = Some h.
Proof.
  unfold unchanged. rewrite andb_true_iff, negb_true_iff.
  destruct (Js.get o key) as [recorded|]; [|naive_solver].
  rewrite String.eqb_eq. naive_solver.
Qed.

(** C2. The regeneration of a draft is skipped if and only if the force
    flag is unset and the ledger holds, for the path of the draft, an
    entry equal to the current digest; it proceeds when the flag is set,
    when there is no entry, or when the entry differs from the digest. *)
Theorem regeneration_skipped_iff tpl d v w h spec :
  fileChecksum C (draftDefFilename d) w = (Return h, w) →
  importDefault C (draftDefFilename d) = Return spec →
  let same :=
    FORCE_REFRESH inv = false ∧
    Js.get (checksums v) (draftDefRelativeFilename d) = Some h in
  let skip :=
    (Return {| checksums := checksums v;
               licenseCopyrights := licenseCopyrights v ++ [licenseCopyright spec] |},
     logged w [skippingLine d]) in
  let proceed :=
    (let* _ := regenerate C tpl d spec in
     ret {| checksums := Js.set (checksums v) (draftDefRelativeFilename d) h;
            licenseCopyrights := licenseCopyrights v ++ [licenseCopyright spec] |}) w in
  (processDraft C inv tpl d v w = skip ↔ same) ∧
  (processDraft C inv tpl d v w = proceed ↔ ¬ same) ∧
  (¬ same ↔
     FORCE_REFRESH inv = true ∨
     Js.get (checksums v) (draftDefRelativeFilename d) = None ∨
     ∃ h', Js.get (checksums v) (draftDefRelativeFilename d) = Some h' ∧ h' ≠ h).
Proof.
  intros Hs Hi same skip proceed.
  assert (skip ≠ proceed) as Hne.
  { unfold skip, proceed, bind. intros Heq.
    destruct (regenerate C tpl d spec w) as [[[]|e] w1] eqn:Hr; unfold ret in Heq;
      simplify_eq.
    apply regenerate_effects in Hr as (_ & _ & Hc). simpl in Hc.
    apply app_inv_head in Hc. apply (skipping_not_complete d d). congruence. }
  assert (same → processDraft C inv tpl d v w = skip) as Hskip.
  { intros Hsame%unchanged_true. apply step_processDraft. by eapply step_skipped. }
  assert (¬ same → processDraft C inv tpl d v w = proceed) as Hproceed.
  { unfold same. rewrite <-unchanged_true. intros Hu%not_true_is_false.
    unfold processDraft, bind at 1. rewrite Hs, bind_await, Hi, Hu. done. }
  split_and!.
  - split; [|done]. intros Heq. destruct (decide same) as [|Hn]; [done|].
    apply Hproceed in Hn. congruence.
  - split; [|done]. intros Heq Hsame. apply Hskip in Hsame. congruence.
  - unfold same. destruct (FORCE_REFRESH inv), (Js.get _ _) as [h'|];
      [naive_solver..| |naive_solver].
    destruct (decide (h' = h)); naive_solver.
Qed.


End Ledger.

(** A turn of the loop for [draft7], whose digest is the recorded one. *)
Lemma regeneration_skipped_iff_witness :
  processDraft sample (invocation false []) "export {};" "draft7" sampleVars sampleWorld =
    (Return {| checksums := checksums sampleVars;
               licenseCopyrights :=
                 [licenseCopyright (sampleSpec "draft7")] |},
     logged sampleWorld [skippingLine "draft7"]).
Proof.
  apply (regeneration_skipped_iff sample (invocation false []) "export {};" "draft7"
           sampleVars sampleWorld "62" (sampleSpec "draft7")
           eq_refl eq_refl).
  split; reflexivity.
Defined.


(** ** Failures *)

Lemma outputFilename_inj d1 d2 : outputFilename d1 = outputFilename d2 → d1 = d2.
Proof.
  unfold outputFilename, path_join. intros H.
  do 3 apply (inj (String.append _)) in H. by apply app_inj_suffix in H.
Qed.

Lemma outputFilename_not_json d1 d2 : outputFilename d1 ≠ jsonDefFilename d2.
Proof.
  unfold outputFilename, jsonDefFilename, path_join, DENO_DIR, SPEC_DEFS_DIR, path_join, DIST_DIR.
  rewrite !app_String. discriminate.
Qed.

Section Failures.
Context {Schema MessageText : Type}.
Variable C : Collaborators Schema MessageText.
Variable inv : Invocation.

(** The lines and the module files of a draft appear only in its own
    turn of the loop. *)
Lemma processDrafts_untouched tpl ds v w r w' d' :
  processDrafts C inv tpl ds v w = (r, w') →
  d' ∉ ds →
  (completeLine d' ∈ console w' → completeLine d' ∈ console w) ∧
  (skippingLine d' ∈ console w' → skippingLine d' ∈ console w) ∧
  (∀ t, (outputFilename d', t) ∈ written w' → (outputFilename d', t) ∈ written w).
Proof.
  intros (_ & (ws & -> & Hws) & (ls & -> & Hls))%processDrafts_effects Hd'.
  rewrite Forall_forall in Hws. rewrite Forall_forall in Hls.
  split_and!.
  - intros [?|(d & Hd & [Heq|Heq])%Hls]%elem_of_app; [done| |].
    + symmetry in Heq. by apply skipping_not_complete in Heq.
    + by apply completeLine_inj in Heq as ->.
  - intros [?|(d & Hd & [Heq|Heq])%Hls]%elem_of_app; [done| |].
    + by apply skippingLine_inj in Heq as ->.
    + by apply skipping_not_complete in Heq.
  - intros t [?|(d & Hd & [Heq|[Heq _]])%Hws]%elem_of_app; [done| |]; simpl in Heq.
    + by apply outputFilename_not_json in Heq.
    + by apply outputFilename_inj in Heq as ->.
Qed.

(** C3, amended. The failure of the regeneration of one
    draft ends the whole run with that exception: the run stops in the
    state the failure left, the ledger document is not written, and no
    draft after the failed one is skipped, regenerated or written. *)
Theorem failed_draft_ends_run files doc tpl pre d post v1 w1 e w2 :
  files !! modTemplateFilename = Some tpl →
  drafts C inv = pre ++ d :: post →
  processDrafts C inv tpl pre (vars0 doc) (initial files doc) = (Return v1, w1) →
  processDraft C inv tpl d v1 w1 = (Throw e, w2) →
  run C inv files doc = (Throw e, w2) ∧
  ledger w2 = doc ∧
  ∀ d', d' ∉ pre → d' ≠ d →
        (completeLine d' ∉ console w2) ∧ (skippingLine d' ∉ console w2) ∧
        ∀ t, (outputFilename d', t) ∉ written w2.
Proof.
  intros Htpl Hds Hpre Hd.
  assert (processDrafts C inv tpl (pre ++ [d]) (vars0 doc) (initial files doc)
          = (Throw e, w2)) as Hloop.
  { rewrite processDrafts_app. unfold bind at 1. rewrite Hpre. simpl.
    unfold bind. by rewrite Hd. }
  split_and!.
  - apply run_Run. eapply run_loop_throws; [done|].
    rewrite Hds, (cons_middle d), app_assoc, processDrafts_app.
    unfold bind. by rewrite Hloop.
  - by apply processDrafts_effects in Hloop as (-> & _).
  - intros d' Hd' Hne.
    destruct (processDrafts_untouched _ _ _ _ _ _ d' Hloop) as (Hc & Hs & Hw).
    { rewrite elem_of_app, list_elem_of_singleton. naive_solver. }
    simpl in *. split_and!.
    + by intros []%Hc%elem_of_nil.
    + by intros []%Hs%elem_of_nil.
    + by intros t []%Hw%elem_of_nil.
Qed.
End Failures.

(** In [failingRun], [bad] fails after [2019-09] and before [draft7]. *)
Lemma failed_draft_ends_run_witness :
  failingRun = (Throw "MissingPlaceholderBinding: UNKNOWN_FIELD", failingRun.2) ∧
  (completeLine "draft7" ∉ console failingRun.2) ∧
  (skippingLine "draft7" ∉ console failingRun.2).
Proof.
  destruct (failed_draft_ends_run sample failingInvocation sampleFiles []
    "export {};" ["2019-09"] "bad" ["draft7"] varsBeforeFailure beforeFailure.2
    "MissingPlaceholderBinding: UNKNOWN_FIELD" failingRun.2) as (Hrun & _ & Hnot);
    try (vm_compute; reflexivity).
  split; [exact Hrun|].
  destruct (Hnot "draft7") as (? & ? & _); [|discriminate|done].
  intros Hin. apply elem_of_cons in Hin as [Heq|Hin]; [discriminate Heq|].
  by apply elem_of_nil in Hin.
Defined.

(** With drafts [2019-09], [bad] and [draft7], [draft7] is regenerated
    when it is alone, and is not reached when [bad] fails before it. *)
Lemma later_draft_not_processed :
  drafts sample failingInvocation = ["2019-09"; "bad"; "draft7"] ∧
  failingRun.1 = Throw "MissingPlaceholderBinding: UNKNOWN_FIELD" ∧
  console failingRun.2 = [completeLine "2019-09"] ∧
  (written failingRun.2).*1 =
    [jsonDefFilename "2019-09"; outputFilename "2019-09"; jsonDefFilename "bad"] ∧
  (run sample (invocation false ["2019-09"; "draft7"]) sampleFiles []).1 = Return ().
Proof. vm_compute. by split_and!. Qed.

(** ** The latest draft *)

Lemma filter_nil_iff {A} (f : A → bool) l : List.filter f l = [] ↔ ∀ x, x ∈ l → f x = false.
Proof.
  induction l as [|a l IH]; simpl.
  - split; [|done]. by intros _ x ?%elem_of_nil.
  - destruct (f a) eqn:Hfa.
    + split; [done|]. intros H. rewrite H in Hfa; [done|left].
    + rewrite IH. split.
      * intros H x [->|?]%elem_of_cons; auto.
      * intros H x ?. apply H. by right.
Qed.

Lemma last_filter_sorted {A} (R : relation A) (f : A → bool) l d :
  (∀ x, R x x) → StronglySorted R l → last (List.filter f l) = Some d →
  d ∈ l ∧ f d = true ∧ ∀ x, x ∈ l → f x = true → R x d.
Proof.
  intros Hrefl. induction 1 as [|a l Hl IH Ha]; simpl; [done|].
  rewrite Forall_forall in Ha.
  destruct (f a) eqn:Hfa.
  - rewrite last_cons. destruct (last (List.filter f l)) as [d'|] eqn:Hlast.
    + intros ?; simplify_eq. destruct IH as (Hd & Hfd & Hall); [done|].
      split_and!; [by right|done|].
      intros x [->|?]%elem_of_cons ?; auto.
    + intros ?; simplify_eq. apply last_None in Hlast. rewrite filter_nil_iff in Hlast.
      split_and!; [left|done|].
      intros x [->|Hx]%elem_of_cons Hfx; [done|]. apply Hlast in Hx. congruence.
  - intros (Hd & Hfd & Hall)%IH. split_and!; [by right|done|].
    intros x [->|?]%elem_of_cons ?; [congruence|auto].
Qed.

Section Latest.
Context {Schema MessageText : Type}.
Variable C : Collaborators Schema MessageText.
Variable inv : Invocation.

Lemma drafts_elem d : d ∈ drafts C inv ↔ d ∈ globbed inv.
Proof. unfold drafts. apply sort_elem. Qed.

Lemma latestDraft_None :
  latestDraft (drafts C inv) = None ↔ ∀ d, d ∈ globbed inv → hasNumericPrefix d = false.
Proof.
  unfold latestDraft. rewrite last_None, filter_nil_iff.
  by setoid_rewrite drafts_elem.
Qed.

(** C4, amended. The latest draft is the last, in the order
    of [localeCompare], of the drafts that have a numeric prefix; every
    discovered draft stays in the list that is generated, and a draft
    without a numeric prefix is never the latest. *)
Theorem latest_is_last_numeric :
  Js.Consistent (localeCompare C) →
  drafts C inv ≡ₚ globbed inv ∧
  (∀ d, latestDraft (drafts C inv) = Some d →
        d ∈ globbed inv ∧ hasNumericPrefix d = true ∧
        ∀ d', d' ∈ globbed inv → hasNumericPrefix d' = true → localeCompare C d' d <= 0) ∧
  (latestDraft (drafts C inv) = None ↔
     ∀ d, d ∈ globbed inv → hasNumericPrefix d = false).
Proof.
  intros Hc. split_and!; [apply sort_perm| |apply latestDraft_None].
  intros d Hd. unfold latestDraft in Hd.
  apply (last_filter_sorted (Js.notAfter (localeCompare C))) in Hd as (Hin & Hf & Hall).
  - split_and!; [by apply drafts_elem|done|].
    intros d' Hd' Hf'. apply Hall; [by apply drafts_elem|done].
  - intros x. unfold Js.notAfter. by destruct (Js.cmp_total _ Hc x x).
  - by apply sort_sorted.
Qed.

(** C7. When no discovered draft has a numeric prefix, the run ends with
    an exception, whatever else happens; when the loop has returned, it is
    the error of line 159, thrown once the ledger has been written and
    before anything else is. *)
Theorem no_numeric_prefix_is_fatal files doc :
  (∀ d, d ∈ globbed inv → hasNumericPrefix d = false) →
  (∃ e w', run C inv files doc = (Throw e, w')) ∧
  (∀ tpl v w1,
      files !! modTemplateFilename = Some tpl →
      processDrafts C inv tpl (drafts C inv) (vars0 doc) (initial files doc)
        = (Return v, w1) →
      run C inv files doc = (Throw "TODO", recorded w1 (sortedChecksums C (checksums v)))).
Proof.
  intros Hnone%latestDraft_None.
  assert (∀ tpl v w1,
    files !! modTemplateFilename = Some tpl →
    processDrafts C inv tpl (drafts C inv) (vars0 doc) (initial files doc)
      = (Return v, w1) →
    run C inv files doc = (Throw "TODO", recorded w1 (sortedChecksums C (checksums v))))
    as Hloop.
  { intros tpl v w1 Htpl Hloop. apply run_Run. eapply run_loop_returns; [done..|].
    by rewrite finish_cases, Hnone. }
  split; [|done].
  destruct (run C inv files doc) as [r w'] eqn:Hrun. apply run_Run in Hrun.
  destruct Hrun as [Htpl|tpl e w' Htpl Hl|tpl v w1 r w' Htpl Hl Hfin]; [by eauto..|].
  rewrite finish_cases, Hnone in Hfin. simplify_eq. by eauto.
Qed.
End Latest.

(** Of [draft7], [2020-12] and [2019-09], the latest is [2020-12]. *)
Lemma latest_is_last_numeric_witness :
  latestDraft (drafts sample (invocation false ["draft7"; "2020-12"; "2019-09"]))
    = Some "2020-12" ∧
  localeCompare sample "2019-09" "2020-12" <= 0.
Proof.
  split; [reflexivity|].
  destruct (latest_is_last_numeric sample (invocation false ["draft7"; "2020-12"; "2019-09"])
              codeUnitCompare_consistent) as (_ & H & _).
  destruct (H "2020-12" eq_refl) as (_ & _ & Hle).
  apply Hle; [|reflexivity].
  apply elem_of_cons; right. apply elem_of_cons; right. apply elem_of_cons; by left.
Defined.

(** With [draft7] alone the run ends with the error of line 159. *)
Lemma no_numeric_prefix_is_fatal_witness :
  (run sample (invocation false ["draft7"]) sampleFiles []).1 = Throw "TODO".
Proof.
  destruct (no_numeric_prefix_is_fatal sample (invocation false ["draft7"]) sampleFiles [])
    as (_ & H).
  - intros d Hd. apply elem_of_cons in Hd as [->|Hd]; [reflexivity|].
    by apply elem_of_nil in Hd.
  - by rewrite (H "export {};"
      match (processDrafts sample (invocation false ["draft7"]) "export {};" ["draft7"]
               (vars0 []) (initial sampleFiles [])).1 with
      | Return v => v | Throw _ => vars0 [] end
      (processDrafts sample (invocation false ["draft7"]) "export {};" ["draft7"]
         (vars0 []) (initial sampleFiles [])).2 eq_refl eq_refl).
Defined.

(** Drafts [9] and [10]: [10] has the greater numeric prefix, and [9],
    which [localeCompare] puts after it, is the latest draft. *)
Lemma latest_is_not_greatest_prefix :
  drafts sample (invocation false ["9"; "10"]) = ["10"; "9"] ∧
  latestDraft (drafts sample (invocation false ["9"; "10"])) = Some "9" ∧
  numericPrefix "9" = Some 9 ∧ numericPrefix "10" = Some 10.
Proof. vm_compute. by split_and!. Qed.

(** ** Compilation *)

Lemma app_empty_r s : s +:+ "" = s.
Proof. induction s as [|c s IH]; [done|]. rewrite app_String. by f_equal. Qed.

Lemma app_empty_l s : "" +:+ s = s.
Proof. done. Qed.

Lemma app_assoc_string a b c : (a +:+ b) +:+ c = a +:+ b +:+ c.
Proof. induction a as [|x a IH]; [done|]. rewrite !app_String. by f_equal. Qed.

Lemma join_cons sep x y l : Js.join sep (x :: y :: l) = x +:+ sep +:+ Js.join sep (y :: l).
Proof. done. Qed.

Lemma join_contains (sep : string) (l : list string) (x : string) :
  x ∈ l → ∃ before after, Js.join sep l = before +:+ x +:+ after.
Proof.
  induction l as [|y l IH]; [by intros ?%elem_of_nil|].
  intros [->|Hx]%elem_of_cons.
  - destruct l as [|z l].
    + exists "", "". simpl. by rewrite app_empty_l, app_empty_r.
    + exists "", (sep +:+ Js.join sep (z :: l)). by rewrite join_cons, app_empty_l.
  - destruct (IH Hx) as (before & after & Heq). destruct l as [|z l].
    + by apply elem_of_nil in Hx.
    + exists (y +:+ sep +:+ before), after.
      by rewrite join_cons, Heq, !app_assoc_string.
Qed.

Section Compilation.
Context {Schema MessageText : Type}.
Variable C : Collaborators Schema MessageText.

(** C9. [compileTypeScript] throws whenever the compiler reports a
    diagnostic, of any category; the error message holds, for each
    diagnostic that has a file, the name of the file, the line and the column
    counted from one, and the message; it returns only when there is no
    diagnostic and the emission was not skipped. *)
Theorem compile_fails_on_any_diagnostic sourceFile outputDir w :
  let program := createProgram C sourceFile outputDir (fs w) in
  let allDiagnostics := preEmitDiagnostics program ++ diagnostics (emitResult program) in
  (allDiagnostics ≠ [] →
   ∃ message,
     (compileTypeScript C sourceFile outputDir w).1 = Throw message ∧
     message = "TypeScript compilation failed:" +:+ nl +:+
               Js.join nl (describeDiagnostic C <$> allDiagnostics) ∧
     ∀ d f, d ∈ allDiagnostics → file d = Some f →
       let line := (getLineAndCharacterOfPosition f (start d)).1 in
       let character := (getLineAndCharacterOfPosition f (start d)).2 in
       ∃ before after,
         message = before +:+
           (fileName f +:+ " (" +:+ pretty (line + 1)%nat +:+ "," +:+
            pretty (character + 1)%nat +:+ "): " +:+
            flattenDiagnosticMessageText C (messageText d) nl) +:+ after) ∧
  ((compileTypeScript C sourceFile outputDir w).1 = Return () ↔
   allDiagnostics = [] ∧ emitSkipped (emitResult program) = false).
Proof.
  intros program allDiagnostics.
  assert ((compileTypeScript C sourceFile outputDir w).1 = checkDiagnostics C program) as ->.
  { unfold compileTypeScript. fold program. by destruct (checkDiagnostics C program). }
  unfold checkDiagnostics. fold allDiagnostics.
  destruct allDiagnostics as [|d0 ds] eqn:Hall.
  - simpl. split; [done|]. destruct (emitSkipped _); naive_solver.
  - assert ((0 <? length (d0 :: ds))%nat = true) as -> by done.
    split; [|naive_solver]. intros _. eexists. split_and!; [done..|].
    intros d f Hd Hf.
    destruct (join_contains nl (describeDiagnostic C <$> d0 :: ds) (describeDiagnostic C d))
      as (before & after & Heq).
    { apply list_elem_of_fmap. by exists d. }
    exists ("TypeScript compilation failed:" +:+ nl +:+ before), after.
    rewrite Heq. unfold describeDiagnostic at 1. rewrite Hf.
    destruct (getLineAndCharacterOfPosition f (start d)) as [l c]. simpl.
    by rewrite !app_assoc_string.
Qed.
End Compilation.

(** One warning makes the compilation fail. *)
Lemma compile_fails_on_any_diagnostic_witness :
  (compileTypeScript warningCompiler "mod.ts" "dist/node" sampleWorld).1 =
    Throw ("TypeScript compilation failed:" +:+ nl +:+ "mod.ts (3,5): unused label").
Proof.
  destruct (compile_fails_on_any_diagnostic warningCompiler "mod.ts" "dist/node" sampleWorld)
    as [H _].
  destruct H as (message & -> & -> & _); [discriminate|reflexivity].
Defined.

(** ** The banner of generated modules *)

Lemma generatedSource_marker modCode :
  Js.startsWith generatedMarker (generatedSource modCode) = true.
Proof. reflexivity. Qed.

Lemma latestSource_no_marker latestDraft :
  Js.startsWith generatedMarker (latestSource latestDraft) = false.
Proof. reflexivity. Qed.

Lemma versionSource_no_marker version :
  Js.startsWith generatedMarker (versionSource version) = false.
Proof. reflexivity. Qed.

Section Banner.
Context {Schema MessageText : Type}.
Variable C : Collaborators Schema MessageText.
Variable inv : Invocation.

(** C8, amended. Every module the loop emits for a draft
    starts with the two marker lines; the other source modules the run
    emits, the alias of the latest draft and [version.ts], are written
    without them. Nothing else is written but the JSON definitions, the
    READMEs, the LICENSE and the package metadata. *)
Theorem draft_modules_carry_banner files doc r w' :
  run C inv files doc = (r, w') →
  (∀ p t, (p, t) ∈ written w' →
     (∃ d, d ∈ globbed inv ∧ p = jsonDefFilename d) ∨
     (∃ d modCode, d ∈ globbed inv ∧ p = outputFilename d ∧ t = generatedSource modCode ∧
                   Js.startsWith generatedMarker t = true) ∨
     (∃ latest, latestDraft (drafts C inv) = Some latest ∧
                p = latestFilename ∧ t = latestSource latest ∧
                Js.startsWith generatedMarker t = false) ∨
     p ∈ publishedFilenames) ∧
  (r = Return () →
   (∃ latest, (latestFilename, latestSource latest) ∈ written w') ∧
   (versionFilename, versionSource (VERSION inv)) ∈ written w' ∧
   Js.startsWith generatedMarker (versionSource (VERSION inv)) = false).
Proof.
  intros Hrun%run_Run.
  assert (∀ tpl ro w1, processDrafts C inv tpl (drafts C inv) (vars0 doc) (initial files doc)
                      = (ro, w1) →
    ∀ p t, (p, t) ∈ written w1 →
     (∃ d, d ∈ globbed inv ∧ p = jsonDefFilename d) ∨
     (∃ d modCode, d ∈ globbed inv ∧ p = outputFilename d ∧ t = generatedSource modCode ∧
                   Js.startsWith generatedMarker t = true)) as Hloopw.
  { intros tpl ro w1 (_ & (ws & -> & Hws) & _)%processDrafts_effects p t Hin.
    simpl in Hin. rewrite Forall_forall in Hws.
    apply Hws in Hin as (d & Hd%drafts_elem & [Hj|[Ho [modCode Ht]]]); simpl in *.
    - left. by exists d.
    - right. exists d, modCode. subst.
      split_and!; first [done|apply generatedSource_marker]. }
  destruct Hrun as [Htpl|tpl e w' Htpl Hloop|tpl v w1 r w' Htpl Hloop Hfin].
  - split; [|done]. by intros p t ?%elem_of_nil.
  - split; [|done]. intros p t Hin.
    destruct (Hloopw _ _ _ Hloop p t Hin) as [?|?]; auto.
  - rewrite finish_cases in Hfin. destruct (latestDraft (drafts C inv)) as [latest|] eqn:Hlatest.
    + apply publish_effects in Hfin as (_ & _ & (ws & Hw & Hws & Hret)). simpl in Hw.
      rewrite Forall_forall in Hws. split.
      * intros p t. rewrite Hw, elem_of_app, elem_of_cons.
        intros [Hin|[Heq|Hin]].
        -- destruct (Hloopw _ _ _ Hloop p t Hin) as [?|?]; auto.
        -- simplify_eq. right. right. left. exists latest.
           split_and!; first [done|apply latestSource_no_marker].
        -- right. right. right. by apply (Hws _ Hin).
      * intros Hr. destruct (Hret Hr) as (template & text & _ & _ & Hv).
        split_and!; [|by rewrite Hw, elem_of_app, elem_of_cons; auto|
                     apply versionSource_no_marker].
        exists latest. rewrite Hw, elem_of_app, elem_of_cons. auto.
    + simplify_eq. split; [|done]. simpl. intros p t Hin.
      destruct (Hloopw _ _ _ Hloop p t Hin) as [?|?]; auto.
Qed.
End Banner.

(** [completeRun] writes [version.ts]. *)
Lemma draft_modules_carry_banner_witness :
  (versionFilename, versionSource "1.0.0") ∈ written completeRun.2.
Proof.
  destruct (draft_modules_carry_banner sample (invocation false ["draft7"; "2019-09"])
              sampleFiles [] _ _ (surjective_pairing completeRun)) as [_ H].
  destruct H as (_ & Hv & _); [reflexivity|exact Hv].
Defined.

(** The run of [2019-09] and [draft7] writes the alias of the latest draft
    and [version.ts], and neither starts with the marker. *)
Lemma alias_and_version_have_no_banner :
  written completeRun.2 !! 4%nat = Some (latestFilename, latestSource "2019-09") ∧
  Js.startsWith generatedMarker (latestSource "2019-09") = false ∧
  written completeRun.2 !! 9%nat = Some (versionFilename, versionSource "1.0.0") ∧
  Js.startsWith generatedMarker (versionSource "1.0.0") = false.
Proof. vm_compute. by split_and!. Qed.

(** ** The LICENSE *)


Section License.
Context {Schema MessageText : Type}.
Variable C : Collaborators Schema MessageText.
Variable inv : Invocation.



End License.

(** ** The files a run leaves alone *)

Lemma sameFilesOutside_refl ps w : sameFilesOutside ps w w.
Proof. by intros p _. Qed.

Lemma sameFilesOutside_trans ps w1 w2 w3 :
  sameFilesOutside ps w1 w2 → sameFilesOutside ps w2 w3 → sameFilesOutside ps w1 w3.
Proof. intros H12 H23 p Hp. by rewrite H23, H12. Qed.

Lemma sameFilesOutside_insert ps p t w w' :
  p ∈ ps → fs w' = <[p := t]> (fs w) → sameFilesOutside ps w w'.
Proof. intros Hp Hfs q Hq. rewrite Hfs, lookup_insert_ne; [done|]. by intros ->. Qed.

Section Frame.
Context {Schema MessageText : Type}.
Variable C : Collaborators Schema MessageText.
Variable inv : Invocation.

Lemma fmtCommand_frame ps filename w r w' :
  filename ∈ ps → fmtCommand C filename w = (r, w') → sameFilesOutside ps w w'.
Proof.
  unfold fmtCommand. intros Hin H.
  destruct (fs w !! filename) as [t|]; [|simplify_eq; apply sameFilesOutside_refl].
  destruct (denoFmt C t) as [t'|]; simplify_eq; [|apply sameFilesOutside_refl].
  by eapply sameFilesOutside_insert.
Qed.

Lemma updateReadmes_frame ps l latest w r w' :
  l.*2 ⊆ ps → updateReadmes C inv l latest w = (r, w') → sameFilesOutside ps w w'.
Proof.
  revert w. induction l as [|[template output] l IH]; intros w Hsub; simpl.
  - unfold ret. intros ?; simplify_eq. apply sameFilesOutside_refl.
  - assert (output ∈ ps) as Hout by (apply Hsub; left).
    assert (l.*2 ⊆ ps) as Hsub' by (intros q ?; apply Hsub; by right).
    rewrite bind_readTextFile. destruct (fs w !! template) as [t|]; intros H; simplify_eq;
      [|apply sameFilesOutside_refl].
    rewrite bind_writeTextFile in H. unfold bind in H.
    destruct (fmtCommand C _ _) as [r1 w1] eqn:H1.
    pose proof (fmtCommand_frame ps _ _ _ _ Hout H1) as Hf1.
    apply fmtCommand_effects in H1 as (-> & _).
    eapply sameFilesOutside_trans; [|eapply sameFilesOutside_trans; [exact Hf1|by eapply IH]].
    by eapply sameFilesOutside_insert.
Qed.

Lemma copyLicense_frame ps dirs w r w' :
  ((λ dir, path_join dir "LICENSE.md") <$> dirs) ⊆ ps →
  copyLicense dirs w = (r, w') → sameFilesOutside ps w w'.
Proof.
  revert w. induction dirs as [|dir dirs IH]; intros w Hsub; simpl.
  - unfold ret. intros ?; simplify_eq. apply sameFilesOutside_refl.
  - unfold bind, copy. destruct (fs w !! licenseFilename) as [t|]; intros H; simplify_eq;
      [|apply sameFilesOutside_refl].
    eapply sameFilesOutside_trans; [|eapply IH; [|exact H]].
    + eapply sameFilesOutside_insert; [|done]. apply Hsub. left.
    + intros q ?. apply Hsub. by right.
Qed.

Lemma publish_frame latest lic w r w' :
  publish C inv latest lic w = (r, w') → sameFilesOutside publishedFiles w w'.
Proof.
  assert (∀ p, p ∈ publishedFilenames → p ∈ publishedFiles) as Hpub.
  { intros p ?. right. apply elem_of_app. by left. }
  unfold publish. rewrite bind_writeTextFile. unfold bind at 1.
  destruct (updateReadmes C inv _ _ _) as [r1 w1] eqn:H1.
  apply (updateReadmes_frame publishedFiles) in H1;
    [|intros p ?; apply Hpub, elem_of_app; by left].
  assert (sameFilesOutside publishedFiles w w1) as Hw1.
  { eapply sameFilesOutside_trans; [|exact H1]. eapply sameFilesOutside_insert; [left|done]. }
  clear H1. destruct r1 as [[]|e1]; intros H; simplify_eq; [|done].
  rewrite bind_readTextFile in H.
  destruct (fs w1 !! _) as [template|]; simplify_eq; [|done].
  rewrite bind_await in H.
  destruct (licenseText C inv template lic) as [text|e]; simplify_eq; [|done].
  rewrite bind_writeTextFile in H. unfold bind at 1 in H.
  destruct (copyLicense _ _) as [r2 w2] eqn:H2.
  apply (copyLicense_frame publishedFiles) in H2;
    [|intros p ?; right; apply elem_of_app; by right].
  assert (sameFilesOutside publishedFiles w w2) as Hw2.
  { eapply sameFilesOutside_trans; [exact Hw1|].
    eapply sameFilesOutside_trans; [|exact H2].
    eapply sameFilesOutside_insert; [|done]. apply Hpub. set_solver. }
  clear H2. destruct r2 as [[]|e2]; simplify_eq; [|done].
  rewrite !bind_writeTextFile in H. unfold writeTextFile in H. simplify_eq/=.
  intros p Hp. simpl.
  rewrite !lookup_insert_ne; [by apply Hw2| |]; intros <-; apply Hp, Hpub; set_solver.
Qed.

Lemma finish_frame v w r w' :
  finish C inv v w = (r, w') → sameFilesOutside publishedFiles w w'.
Proof.
  rewrite finish_cases. destruct (latestDraft _).
  - intros H%publish_frame. intros p Hp. by rewrite (H p Hp).
  - intros ?; simplify_eq. by intros p _.
Qed.
End Frame.



Lemma StronglySorted_fmap_inv {A B} (f : A → B) (R : relation B) l :
  StronglySorted R (f <$> l) → StronglySorted (λ a b, R (f a) (f b)) l.
Proof.
  induction l as [|a l IH]; [constructor|].
  rewrite fmap_cons. intros [Hl Ha]%StronglySorted_inv. constructor; [by apply IH|].
  by rewrite Forall_fmap in Ha.
Qed.

(** ** The persisted ledger *)

Section Persistence.
Context {Schema MessageText : Type}.
Variable C : Collaborators Schema MessageText.
Variable inv : Invocation.

Lemma compareKeys_consistent :
  Js.Consistent (localeCompare C) →
  Js.Consistent (λ a b : string * string, localeCompare C a.1 b.1).
Proof. intros [Htotal Htrans]. split; [by intros a b|]. intros a b c. apply Htrans. Qed.

(** Without array indices among its keys, the document written is the list
    of the entries sorted by key. *)
Lemma sortedChecksums_sorted o :
  Js.Consistent (localeCompare C) →
  NoDup (Js.keys o) →
  Forall (λ k, Js.arrayIndex k = None) (Js.keys o) →
  sortedChecksums C o = Js.sort (λ a b, localeCompare C a.1 b.1) o ∧
  StronglySorted (Js.notAfter (localeCompare C)) (sortedChecksums C o).*1.
Proof.
  intros Hc Hnd Hidx.
  assert (sortedChecksums C o = Js.sort (λ a b, localeCompare C a.1 b.1) o) as ->.
  { unfold sortedChecksums. apply fromEntries_id.
    - by apply sorted_entries_nodup.
    - unfold Js.keys in Hidx. by rewrite sort_perm. }
  split; [done|].
  apply (StronglySorted_fmap fst (Js.notAfter (λ a b : string * string, localeCompare C a.1 b.1))).
  - by intros a b.
  - apply sort_sorted. by apply compareKeys_consistent.
Qed.

(** C6, amended. A run leaves in the persisted ledger every key it found
    there, with the value it had unless the key is the path of a draft of
    the run. The ledger is written only by a run whose loop returns: a run
    that ends before, for want of the module template or with the exception
    of a draft, leaves the document as it was, sorted or not. A run whose
    loop returns writes all the entries, with distinct keys, and sorted by
    key in the order of [localeCompare] when no key of the document found
    is an array index, which an object lists first. *)
Theorem persisted_ledger_sorted_superset files doc r w' :
  Js.Consistent (localeCompare C) →
  run C inv files doc = (r, w') →
  (∀ k, k ∈ doc.*1 → k ∈ (ledger w').*1) ∧
  (∀ k, (∀ d, d ∈ globbed inv → k ≠ draftDefRelativeFilename d) →
        Js.get (Js.fromEntries (ledger w')) k = Js.get (Js.fromEntries doc) k) ∧
  (files !! modTemplateFilename = None → (∃ e, r = Throw e) ∧ ledger w' = doc) ∧
  (∀ tpl e w1,
     files !! modTemplateFilename = Some tpl →
     processDrafts C inv tpl (drafts C inv) (vars0 doc) (initial files doc) = (Throw e, w1) →
     r = Throw e ∧ ledger w' = doc) ∧
  (∀ tpl v w1,
     files !! modTemplateFilename = Some tpl →
     processDrafts C inv tpl (drafts C inv) (vars0 doc) (initial files doc) = (Return v, w1) →
     ledger w' = sortedChecksums C (checksums v) ∧
     NoDup (ledger w').*1 ∧
     (Forall (λ k, Js.arrayIndex k = None) doc.*1 →
      StronglySorted (Js.notAfter (localeCompare C)) (ledger w').*1)) ∧
  (r = Return () →
   NoDup (ledger w').*1 ∧
   (Forall (λ k, Js.arrayIndex k = None) doc.*1 →
    StronglySorted (Js.notAfter (localeCompare C)) (ledger w').*1)).
Proof.
  intros Hc Hrun%run_Run.
  destruct Hrun as [Htpl|tpl e w' Htpl Hloop|tpl v w1 r w' Htpl Hloop Hfin].
  - split_and!; [done..| | | |done].
    + intros _. split; [by eexists|done].
    + intros; congruence.
    + intros; congruence.
  - pose proof (processDrafts_effects _ _ _ _ _ _ _ _ Hloop) as (Hl & _). simpl in Hl.
    rewrite Hl. split_and!; [done..| | | |done].
    + intros; congruence.
    + intros tpl' e' w1' Htpl' Hloop'. split; [congruence|done].
    + intros; congruence.
  - apply finish_effects in Hfin as (Hl & _).
    pose proof (processDrafts_returns _ _ _ _ _ _ _ _ Hloop (fromEntries_nodup doc))
      as (Hnd & _ & Hget & Hk1 & Hk2).
    simpl in Hget, Hk1, Hk2.
    assert (NoDup (ledger w').*1 ∧
            (Forall (λ k, Js.arrayIndex k = None) doc.*1 →
             StronglySorted (Js.notAfter (localeCompare C)) (ledger w').*1)) as Hsorted.
    { rewrite Hl. split; [apply sortedChecksums_nodup|]. intros Hidx.
      apply sortedChecksums_sorted; [done..|].
      apply Forall_forall. intros k [Hk|(d & _ & ->)]%Hk2.
      - rewrite fromEntries_keys in Hk. rewrite Forall_forall in Hidx. by apply Hidx.
      - apply draftDefFilename_not_index. }
    split_and!.
    + intros k Hk. rewrite Hl. apply (sortedChecksums_keys C), Hk1. by apply fromEntries_keys.
    + intros k Hk. rewrite Hl, reimport_sortedChecksums_get by done.
      destruct (decide (Js.get (checksums v) k = Js.get (Js.fromEntries doc) k))
        as [|Hne]; [done|].
      apply Hget in Hne as (d & Hd%drafts_elem & -> & _). by destruct (Hk d).
    + intros; congruence.
    + intros; congruence.
    + intros tpl' v' w1' Htpl' Hloop'.
      assert (v' = v) as -> by congruence. by split.
    + done.
Qed.

End Persistence.

(** [staleRun] returns: it keeps the entry of [draft4] and leaves the keys
    sorted. *)
Lemma persisted_ledger_sorted_superset_witness :
  ".src/draft/draft4/definition.ts" ∈ (ledger staleRun.2).*1 ∧
  StronglySorted (Js.notAfter codeUnitCompare) (ledger staleRun.2).*1.
Proof.
  destruct (persisted_ledger_sorted_superset sample (invocation false ["draft7"; "2019-09"])
              sampleFiles staleLedger staleRun.1 staleRun.2 codeUnitCompare_consistent)
    as (Hkeys & _ & _ & _ & _ & Hsorted).
  - apply surjective_pairing.
  - split; [apply Hkeys; right; left|].
    apply Hsorted; [vm_compute; reflexivity|].
    repeat (apply Forall_cons; split; [reflexivity|]). apply Forall_nil_2.
Defined.

(** Two runs that leave a ledger that is not sorted. In [failingImportRun]
    the import of the first draft throws: the ledger is not written, and
    stays [staleLedger], in which [draft7] comes before [draft4]. [indexRun]
    returns: the keys [10] and [9], sorted in this order before the key of
    the draft, are enumerated last to first and before it. *)
Lemma unsorted_ledger_is_left :
  failingImportRun.1 = Throw "SyntaxError" ∧
  (ledger failingImportRun.2).*1 =
    [".src/draft/draft7/definition.ts"; ".src/draft/draft4/definition.ts"] ∧
  ¬ codeUnitCompare ".src/draft/draft7/definition.ts" ".src/draft/draft4/definition.ts" <= 0 ∧
  indexRun.1 = Return () ∧
  Js.sort (λ a b, codeUnitCompare a.1 b.1) (Js.fromEntries indexLedger ++
      [(".src/draft/2019-09/definition.ts", "61")]) =
    [(".src/draft/2019-09/definition.ts", "61"); ("10", "x"); ("9", "y")] ∧
  ledger indexRun.2 = [("9", "y"); ("10", "x"); (".src/draft/2019-09/definition.ts", "61")] ∧
  ¬ codeUnitCompare "9" "10" <= 0.
Proof. vm_compute. split_and!; try done; by intros []. Qed.



(** * Further properties *)

(** ** The hexadecimal digest ([utils/checksum.ts]) *)

Lemma join_empty_cons x l : Js.join "" (x :: l) = x +:+ Js.join "" l.
Proof. destruct l; simpl; [by rewrite app_empty_r|by rewrite app_empty_l]. Qed.

Lemma hexDigit_range n :
  0 <= n < 16 →
  n = 0 ∨ n = 1 ∨ n = 2 ∨ n = 3 ∨ n = 4 ∨ n = 5 ∨ n = 6 ∨ n = 7 ∨
  n = 8 ∨ n = 9 ∨ n = 10 ∨ n = 11 ∨ n = 12 ∨ n = 13 ∨ n = 14 ∨ n = 15.
Proof. lia. Qed.

Lemma hexDigit_lower n : 0 <= n < 16 → stringForall isLowerHex (hexDigit n) = true.
Proof. intros H%hexDigit_range. by repeat destruct H as [->|H]; [..|subst]. Qed.

Lemma hexDigit_inj n m : 0 <= n < 16 → 0 <= m < 16 → hexDigit n = hexDigit m → n = m.
Proof.
  intros Hn%hexDigit_range Hm%hexDigit_range.
  repeat destruct Hn as [->|Hn]; try subst n;
    repeat destruct Hm as [->|Hm]; try subst m;
    first [done|intros Heq; vm_compute in Heq; discriminate Heq].
Qed.

Lemma byteHex_cons b s :
  ∃ c1 c2, byteHex b = String c1 (String c2 EmptyString) ∧
           byteHex b +:+ s = String c1 (String c2 s) ∧
           hexDigit (b / 16) = String c1 EmptyString ∧
           hexDigit (b mod 16) = String c2 EmptyString.
Proof. by eexists _, _. Qed.

Lemma byteHex_inj a b : 0 <= a < 256 → 0 <= b < 256 → byteHex a = byteHex b → a = b.
Proof.
  intros Ha Hb Heq.
  destruct (byteHex_cons a "") as (a1 & a2 & Ha12 & _ & Ha1 & Ha2).
  destruct (byteHex_cons b "") as (b1 & b2 & Hb12 & _ & Hb1 & Hb2).
  rewrite Ha12, Hb12 in Heq. injection Heq as -> ->.
  rewrite <-Hb1 in Ha1. rewrite <-Hb2 in Ha2.
  apply hexDigit_inj in Ha1; [|Z.div_mod_to_equations; lia..].
  apply hexDigit_inj in Ha2; [|Z.div_mod_to_equations; lia..].
  Z.div_mod_to_equations. lia.
Qed.

Section Digest.
Context {Schema MessageText : Type}.
Variable C : Collaborators Schema MessageText.

(** X1. The digest of a file is printed with two lower-case hexadecimal
    digits for each of its bytes. *)
Theorem hashHex_format content :
  Forall (λ b, 0 <= b < 256) (md5 C content) →
  String.length (hashHex C content) = (2 * length (md5 C content))%nat ∧
  stringForall isLowerHex (hashHex C content) = true.
Proof.
  unfold hashHex. induction 1 as [|b bytes Hb Hbytes [IHl IHx]]; [done|].
  rewrite fmap_cons, join_empty_cons.
  destruct (byteHex_cons b (Js.join "" (byteHex <$> bytes))) as (c1 & c2 & _ & -> & H1 & H2).
  assert (stringForall isLowerHex (hexDigit (b / 16)) = true) as Hd1
    by (apply hexDigit_lower; Z.div_mod_to_equations; lia).
  assert (stringForall isLowerHex (hexDigit (b mod 16)) = true) as Hd2
    by (apply hexDigit_lower; Z.div_mod_to_equations; lia).
  rewrite H1 in Hd1. rewrite H2 in Hd2. simpl in *.
  rewrite andb_true_r in Hd1, Hd2. rewrite IHl, Hd1, Hd2, IHx. split; [lia|done].
Qed.

(** X2. Two digests that are printed alike are the same bytes: the ledger
    compares the hexadecimal strings, and loses nothing by it. *)
Theorem hashHex_inj content1 content2 :
  Forall (λ b, 0 <= b < 256) (md5 C content1) →
  Forall (λ b, 0 <= b < 256) (md5 C content2) →
  hashHex C content1 = hashHex C content2 →
  md5 C content1 = md5 C content2.
Proof.
  unfold hashHex. generalize (md5 C content1) (md5 C content2). clear.
  intros l1. induction l1 as [|a l1 IH]; intros [|b l2] H1 H2 Heq; [done| | |].
  - rewrite fmap_cons, join_empty_cons in Heq.
    by destruct (byteHex_cons b (Js.join "" (byteHex <$> l2))) as (? & ? & _ & Hb & _);
      rewrite Hb in Heq.
  - rewrite fmap_cons, join_empty_cons in Heq.
    by destruct (byteHex_cons a (Js.join "" (byteHex <$> l1))) as (? & ? & _ & Ha & _);
      rewrite Ha in Heq.
  - apply Forall_cons in H1 as [Ha H1]. apply Forall_cons in H2 as [Hb H2].
    rewrite !fmap_cons, !join_empty_cons in Heq.
    destruct (byteHex_cons a (Js.join "" (byteHex <$> l1))) as (a1 & a2 & Ha12 & Ha' & _).
    destruct (byteHex_cons b (Js.join "" (byteHex <$> l2))) as (b1 & b2 & Hb12 & Hb' & _).
    rewrite Ha', Hb' in Heq. injection Heq as -> -> Heq.
    f_equal; [|by apply IH].
    apply byteHex_inj; [done..|]. by rewrite Ha12, Hb12.
Qed.
End Digest.

(** The digest of the examples, for the content [ab]. *)
Lemma hashHex_format_witness :
  String.length (hashHex sample "ab") = 4%nat ∧
  stringForall isLowerHex (hashHex sample "ab") = true.
Proof.
  apply (hashHex_format sample "ab").
  replace (md5 sample "ab") with [97; 98] by (vm_compute; reflexivity).
  repeat constructor; lia.
Defined.

Lemma hashHex_inj_witness : md5 sample "ab" = md5 sample "ab".
Proof.
  assert (Forall (λ b, 0 <= b < 256) (md5 sample "ab")) as Hbytes.
  { replace (md5 sample "ab") with [97; 98] by (vm_compute; reflexivity).
    repeat constructor; lia. }
  exact (hashHex_inj sample "ab" "ab" Hbytes Hbytes eq_refl).
Defined.

(** ** The numeric prefix of a draft identifier (line 155) *)

Lemma splitHead_hyphen a b : Js.splitHead "-" (a +:+ "-" +:+ b) = Js.splitHead "-" a.
Proof.
  induction a as [|c a IH]; [reflexivity|].
  rewrite app_String. simpl. destruct (Ascii.eqb c "-"); [done|by rewrite IH].
Qed.

Lemma parseInt_String c s :
  Js.isStrWhiteSpace c = false → c ≠ "-"%char → c ≠ "+"%char →
  Js.parseInt (String c s) = Js.digits None (String c s).
Proof.
  intros Hws Hm Hp. unfold Js.parseInt. cbn [Js.trimStart]. rewrite Hws.
  destruct c as [[] [] [] [] [] [] [] []]; try reflexivity; congruence.
Qed.

Lemma isDigit_codeUnit c : Js.isDigit c = true → 0 <= Js.codeUnit c - 48 <= 9.
Proof. unfold Js.isDigit. lia. Qed.

Lemma isDigit_plain c :
  Js.isDigit c = true → Js.isStrWhiteSpace c = false ∧ c ≠ "-"%char ∧ c ≠ "+"%char.
Proof.
  intros H. split_and!; [|by intros ->..].
  apply isDigit_codeUnit in H. unfold Js.isStrWhiteSpace. lia.
Qed.

Lemma digits_bound s a :
  0 <= a →
  ∃ n, Js.digits (Some a) s = Some n ∧ 0 <= n < (a + 1) * 10 ^ Z.of_nat (String.length s).
Proof.
  revert a. induction s as [|c s IH]; intros a Ha.
  { exists a. split; [done|]. simpl. lia. }
  cbn [Js.digits]. destruct (Js.isDigit c) eqn:Hc.
  - apply isDigit_codeUnit in Hc. change (default 0 (Some a)) with a.
    destruct (IH (10 * a + (Js.codeUnit c - 48))) as (n & -> & Hn); [lia|].
    exists n. split; [done|].
    cbn [String.length]. rewrite Nat2Z.inj_succ, Z.pow_succ_r by lia.
    assert (0 < 10 ^ Z.of_nat (String.length s)) by (apply Z.pow_pos_nonneg; lia). nia.
  - exists a. split; [done|].
    assert (0 < 10 ^ Z.of_nat (String.length (String c s))) by (apply Z.pow_pos_nonneg; lia). nia.
Qed.

Lemma splitHead_length sep s : (String.length (Js.splitHead sep s) <= String.length s)%nat.
Proof. induction s as [|c s IH]; simpl; [lia|]. destruct (Ascii.eqb c sep); simpl; lia. Qed.

(** X3. Only the part of a draft identifier before its first hyphen decides
    whether it has a numeric prefix, and an identifier that starts with a
    hyphen has none: a negative number is never read. *)
Theorem hasNumericPrefix_before_hyphen a b :
  hasNumericPrefix (a +:+ "-" +:+ b) = hasNumericPrefix a ∧
  hasNumericPrefix (String "-" b) = false.
Proof. unfold hasNumericPrefix. by rewrite splitHead_hyphen. Qed.

(** X4. A draft identifier that starts with a decimal digit and has at most
    308 characters has a numeric prefix, whatever follows the digit. *)
Theorem digit_start_has_numeric_prefix c s :
  Js.isDigit c = true → (String.length s < 308)%nat → hasNumericPrefix (String c s) = true.
Proof.
  intros Hc Hs. destruct (isDigit_plain c Hc) as (Hws & Hm & Hp).
  unfold hasNumericPrefix. cbn [Js.splitHead].
  destruct (Ascii.eqb_spec c "-") as [|_]; [done|].
  rewrite parseInt_String by done. cbn [Js.digits]. rewrite Hc.
  change (default 0 None) with 0.
  pose proof (isDigit_codeUnit c Hc) as Hu.
  destruct (digits_bound (Js.splitHead "-" s) (10 * 0 + (Js.codeUnit c - 48))) as (n & -> & Hn);
    [lia|].
  pose proof (splitHead_length "-" s) as Hl.
  assert (10 ^ Z.of_nat (String.length (Js.splitHead "-" s)) <= 10 ^ 307) as Hp10
    by (apply Z.pow_le_mono_r; lia).
  assert (10 * 10 ^ 307 < 2 ^ 1024 - 2 ^ 970) as Hbig by (vm_compute; reflexivity).
  unfold Js.isInteger. apply Z.ltb_lt.
  assert (0 < 10 ^ Z.of_nat (String.length (Js.splitHead "-" s)))
    by (apply Z.pow_pos_nonneg; lia).
  rewrite Z.abs_eq by lia. nia.
Qed.

(** X5. A draft identifier whose first character is neither a decimal
    digit, nor white space, nor a plus sign has no numeric prefix. *)
Theorem other_start_has_no_numeric_prefix c s :
  Js.isDigit c = false → Js.isStrWhiteSpace c = false → c ≠ "+"%char →
  hasNumericPrefix (String c s) = false.
Proof.
  intros Hc Hws Hp. unfold hasNumericPrefix. cbn [Js.splitHead].
  destruct (Ascii.eqb_spec c "-") as [|Hm]; [done|].
  rewrite parseInt_String by done. cbn [Js.digits]. by rewrite Hc.
Qed.

Lemma digit_start_has_numeric_prefix_witness : hasNumericPrefix "2019-09" = true.
Proof. apply (digit_start_has_numeric_prefix "2" "019-09"); [reflexivity|simpl; lia]. Defined.

Lemma other_start_has_no_numeric_prefix_witness : hasNumericPrefix "draft7" = false.
Proof.
  apply (other_start_has_no_numeric_prefix "d" "raft7"); [reflexivity|reflexivity|discriminate].
Defined.

(** ** The order of the drafts (line 47) *)

Lemma sort_unique {A} (cmp : A → A → Z) l1 l2 :
  Js.Consistent cmp →
  (∀ a b, a ∈ l1 → b ∈ l1 → cmp a b <= 0 → cmp b a <= 0 → a = b) →
  l1 ≡ₚ l2 → Js.sort cmp l1 = Js.sort cmp l2.
Proof.
  intros Hc Hd Hp.
  apply (StronglySorted_unique_strong (Js.notAfter cmp)); [|by apply sort_sorted..|].
  - intros a b Ha Hb. apply sort_elem in Ha. apply sort_elem in Hb.
    rewrite <-Hp in Hb. by apply Hd.
  - by rewrite !sort_perm.
Qed.

Lemma codeUnitCompare_distinguishes : distinguishes codeUnitCompare.
Proof.
  intros a b. unfold codeUnitCompare. rewrite (String.compare_antisym b a).
  destruct (String.compare a b) eqn:Hab; simpl; try lia.
  intros _ _. by apply String.compare_eq_iff.
Qed.

Section Order.
Context {Schema MessageText : Type}.
Variable C : Collaborators Schema MessageText.

(** X6. The order in which the drafts are processed does not depend on the
    order in which the directories are found, when [localeCompare] is a
    consistent comparator that tells any two names apart. *)
Theorem drafts_independent_of_glob_order inv1 inv2 :
  Js.Consistent (localeCompare C) → distinguishes (localeCompare C) →
  globbed inv1 ≡ₚ globbed inv2 → drafts C inv1 = drafts C inv2.
Proof. intros Hc Hd Hp. apply sort_unique; [done| |done]. intros a b _ _. apply Hd. Qed.
End Order.

Lemma drafts_independent_of_glob_order_witness :
  drafts sample (invocation false ["draft7"; "2019-09"]) =
  drafts sample (invocation true ["2019-09"; "draft7"]).
Proof.
  apply drafts_independent_of_glob_order.
  - exact codeUnitCompare_consistent.
  - exact codeUnitCompare_distinguishes.
  - apply perm_swap.
Defined.

(** ** The console of a run *)

Section Console.
Context {Schema MessageText : Type}.
Variable C : Collaborators Schema MessageText.
Variable inv : Invocation.

Lemma processDrafts_console tpl ds v w r w' :
  processDrafts C inv tpl ds v w = (r, w') →
  ∃ processed ls,
    processed `prefix_of` ds ∧
    (∀ v', r = Return v' → processed = ds) ∧
    console w' = console w ++ ls ∧
    Forall2 (λ d l, (l = skippingLine d ∧ FORCE_REFRESH inv = false) ∨ l = completeLine d)
      processed ls.
Proof.
  revert v w. induction ds as [|d ds IH]; intros v w; simpl.
  { unfold ret. intros ?; simplify_eq. exists [], []. rewrite app_nil_r.
    split_and!; [done..|constructor]. }
  unfold bind. destruct (processDraft C inv tpl d v w) as [[v1|e1] w1] eqn:Hd;
    apply processDraft_step in Hd.
  - intros (processed & ls & Hpre & Hall & Hc & Hls)%IH.
    assert (∃ l, console w1 = console w ++ [l] ∧
                 ((l = skippingLine d ∧ FORCE_REFRESH inv = false) ∨ l = completeLine d))
      as (l & Hc1 & Hl).
    { inversion Hd as [| |h spec Hs Hi Hu|?|h spec w2 Hs Hi Hu Hr]; subst.
      - exists (skippingLine d). split; [done|]. left. split; [done|].
        by apply unchanged_true in Hu as [? _].
      - apply regenerate_effects in Hr as (_ & _ & Hr). exists (completeLine d).
        split; [done|by right]. }
    exists (d :: processed), (l :: ls). split_and!.
    + by apply prefix_cons.
    + intros v' Hv'. f_equal. by eapply Hall.
    + rewrite Hc, Hc1, <-app_assoc. done.
    + by constructor.
  - intros ?; simplify_eq. exists [], [].
    split_and!; [apply prefix_nil|done| |constructor].
    rewrite app_nil_r.
    inversion Hd as [| | |h spec e w2 Hs Hi Hu Hr|]; subst; [done..|].
    apply regenerate_effects in Hr as (_ & _ & Hr). by rewrite app_nil_r in Hr.
Qed.


(** X8. With [--force] no draft is skipped: the console holds the line of
    completion of each draft processed to its end, and of every draft when
    the run returns. *)
Theorem forced_run_skips_nothing files doc r w' :
  FORCE_REFRESH inv = true →
  run C inv files doc = (r, w') →
  ∃ processed,
    processed `prefix_of` drafts C inv ∧
    console w' = completeLine <$> processed ∧
    (r = Return () → processed = drafts C inv).
Proof.
  intros Hforce Hrun%run_Run.
  assert (∀ processed ls,
    Forall2 (λ d l, (l = skippingLine d ∧ FORCE_REFRESH inv = false) ∨ l = completeLine d)
      processed ls → ls = completeLine <$> processed) as Hlines.
  { induction 1 as [|d l processed ls Hl _ IH]; [done|]. simpl. rewrite IH.
    destruct Hl as [[_ ?]| ->]; [congruence|done]. }
  destruct Hrun as [Htpl|tpl e w' Htpl Hloop|tpl v w1 r w' Htpl Hloop Hfin].
  - exists []. split_and!; [apply prefix_nil|done..].
  - apply processDrafts_console in Hloop as (processed & ls & Hpre & _ & Hc & Hls).
    exists processed. simpl in Hc. rewrite Hc. split_and!; [done|by apply Hlines|done].
  - apply processDrafts_console in Hloop as (processed & ls & Hpre & Hall & Hc & Hls).
    apply finish_effects in Hfin as (_ & Hc').
    exists processed. simpl in Hc. rewrite Hc', Hc.
    split_and!; [done|by apply Hlines|by intros _; eapply Hall].
Qed.
End Console.


(** A forced run on [currentLedger], which holds the digests of both
    drafts. *)
Lemma forced_run_skips_nothing_witness :
  ∃ processed,
    processed `prefix_of` ["2019-09"; "draft7"] ∧
    console (run sample (invocation true ["2019-09"; "draft7"]) sampleFiles currentLedger).2
      = completeLine <$> processed ∧
    ((run sample (invocation true ["2019-09"; "draft7"]) sampleFiles currentLedger).1
       = Return () → processed = ["2019-09"; "draft7"]).
Proof.
  apply (forced_run_skips_nothing sample (invocation true ["2019-09"; "draft7"])
           sampleFiles currentLedger).
  - reflexivity.
  - apply surjective_pairing.
Defined.

(** ** The sources of a run *)

Lemma sourcesKept_refl w : sourcesKept w w.
Proof. by intros p _. Qed.

Lemma sourcesKept_trans w1 w2 w3 : sourcesKept w1 w2 → sourcesKept w2 w3 → sourcesKept w1 w3.
Proof. intros H1 H2 p Hp. by rewrite H2, H1. Qed.

Lemma sourcesKept_insert p t w w' :
  inSrc p = false → fs w' = <[p := t]> (fs w) → sourcesKept w w'.
Proof. intros Hp Hfs q Hq. rewrite Hfs. apply lookup_insert_ne. intros <-. congruence. Qed.

Lemma sourcesKept_outside ps w w' :
  Forall (λ p, inSrc p = false) ps → sameFilesOutside ps w w' → sourcesKept w w'.
Proof.
  intros Hps H p Hp. apply H. intros Hin.
  rewrite Forall_forall in Hps. specialize (Hps p Hin). congruence.
Qed.

Lemma inSrc_draftDef d : inSrc (draftDefFilename d) = true.
Proof. reflexivity. Qed.

Lemma inSrc_jsonDef d : inSrc (jsonDefFilename d) = false.
Proof. reflexivity. Qed.

Lemma inSrc_output d : inSrc (outputFilename d) = false.
Proof. reflexivity. Qed.

Lemma inSrc_published : Forall (λ p, inSrc p = false) publishedFiles.
Proof.
  apply Forall_forall. intros p Hin. vm_compute in Hin.
  repeat (apply elem_of_cons in Hin as [->|Hin]; [reflexivity|]).
  by apply elem_of_nil in Hin.
Qed.

Lemma emitted_sources (l : list (string * string)) (m : gmap string string) p :
  Forall (λ kv, inSrc kv.1 = false) l → inSrc p = true →
  foldl (λ m kv, <[kv.1 := kv.2]> m) m l !! p = m !! p.
Proof.
  revert m. induction l as [|[q t] l IH]; intros m Hl Hp; [done|].
  apply Forall_cons in Hl as [Hq Hl]. simpl. rewrite IH by done.
  apply lookup_insert_ne. intros <-. simpl in Hq. congruence.
Qed.

Lemma Forall2_elem_l {A B} (P : A → B → Prop) l k x :
  Forall2 P l k → x ∈ l → ∃ y, y ∈ k ∧ P x y.
Proof.
  induction 1 as [|a b l k Hab _ IH]; [by intros ?%elem_of_nil|].
  intros [->|Hin]%elem_of_cons.
  - exists b. split; [left|done].
  - destruct (IH Hin) as (y & ? & ?). exists y. split; [by right|done].
Qed.

Section Sources.
Context {Schema MessageText : Type}.
Variable C : Collaborators Schema MessageText.
Variable inv : Invocation.
Hypothesis outside : emitsOutsideSrc C.

Lemma compileTypeScript_sources src out w r w' :
  compileTypeScript C src out w = (r, w') → sourcesKept w w'.
Proof.
  unfold compileTypeScript. intros H.
  assert (fs w' = foldl (λ m kv, <[kv.1 := kv.2]> m) (fs w)
                    (emitted (createProgram C src out (fs w)))) as Hfs.
  { destruct (checkDiagnostics C _); unfold await, ret, throw in H; by simplify_eq. }
  intros p Hp. rewrite Hfs. apply emitted_sources; [apply outside|done].
Qed.

Lemma fmtCommand_sources filename w r w' :
  inSrc filename = false → fmtCommand C filename w = (r, w') → sourcesKept w w'.
Proof.
  intros Hf. unfold fmtCommand. intros H.
  repeat case_match; simplify_eq; try apply sourcesKept_refl.
  by eapply sourcesKept_insert.
Qed.

Lemma regenerate_sources tpl d spec w r w' :
  regenerate C tpl d spec w = (r, w') → sourcesKept w w'.
Proof.
  unfold regenerate. intros H.
  rewrite bind_await in H.
  destruct (formatDefinitionDescriptions C spec 75) as [draftSpec|e]; simplify_eq;
    [|apply sourcesKept_refl].
  rewrite bind_await in H.
  destruct (formatMarkdown C _ _) as [lic|e]; simplify_eq; [|apply sourcesKept_refl].
  rewrite bind_await in H.
  destruct (formatDefinitionDescriptions C spec 100000) as [jsonDef|e]; simplify_eq;
    [|apply sourcesKept_refl].
  rewrite bind_writeTextFile, bind_await in H.
  destruct (expandSourcePlaceholders C _ _ _) as [modCode|e]; simplify_eq/=;
    [|by eapply sourcesKept_insert; [apply (inSrc_jsonDef d)|]].
  rewrite bind_writeTextFile in H. unfold bind in H.
  destruct (fmtCommand C _ _) as [r5 w5] eqn:H5.
  pose proof (fmtCommand_effects _ _ _ _ _ H5) as (-> & _).
  apply fmtCommand_sources in H5; [|apply inSrc_output].
  destruct (compileTypeScript C _ _ _) as [r6 w6] eqn:H6.
  apply compileTypeScript_sources in H6.
  assert (sourcesKept w w6) as Hw6.
  { eapply sourcesKept_trans; [|exact H6]. eapply sourcesKept_trans; [|exact H5].
    intros p Hp. simpl. rewrite !lookup_insert_ne; [done| |]; intros <-;
      first [by rewrite inSrc_output in Hp|by rewrite inSrc_jsonDef in Hp]. }
  destruct r6; simplify_eq/=; [|done].
  unfold console_log in H. simplify_eq. intros p Hp. by apply Hw6.
Qed.

Lemma DraftStep_sources tpl d v w r w' : DraftStep C inv tpl d v w r w' → sourcesKept w w'.
Proof.
  destruct 1 as [e Hs|h e Hs Hi|h spec Hs Hi Hu|h spec e w' Hs Hi Hu Hr|h spec w' Hs Hi Hu Hr];
    try apply sourcesKept_refl; try by eapply regenerate_sources.
  by intros p _.
Qed.

Lemma processDrafts_sources tpl ds v w r w' :
  processDrafts C inv tpl ds v w = (r, w') → sourcesKept w w'.
Proof.
  revert v w. induction ds as [|d ds IH]; intros v w; simpl.
  { unfold ret. intros ?; simplify_eq. apply sourcesKept_refl. }
  unfold bind. destruct (processDraft C inv tpl d v w) as [[v1|e1] w1] eqn:Hd;
    apply processDraft_step, DraftStep_sources in Hd.
  - intros H%IH. by eapply sourcesKept_trans.
  - by intros ?; simplify_eq.
Qed.

Lemma finish_sources v w r w' : finish C inv v w = (r, w') → sourcesKept w w'.
Proof. intros H%finish_frame. eapply sourcesKept_outside; [apply inSrc_published|done]. Qed.

Lemma run_sources files doc r w' :
  run C inv files doc = (r, w') → ∀ p, inSrc p = true → fs w' !! p = files !! p.
Proof.
  intros Hrun%run_Run.
  destruct Hrun as [Htpl|tpl e w' Htpl Hloop|tpl v w1 r w' Htpl Hloop Hfin].
  - done.
  - by apply processDrafts_sources in Hloop.
  - apply processDrafts_sources in Hloop. apply finish_sources in Hfin.
    intros p Hp. by rewrite (Hfin p Hp), (Hloop p Hp).
Qed.

Lemma fileChecksum_Return file w h w' :
  fileChecksum C file w = (Return h, w') →
  ∃ content, fs w !! file = Some content ∧ h = hashHex C content.
Proof.
  unfold fileChecksum. rewrite bind_readTextFile.
  destruct (fs w !! file) as [content|]; [|done].
  unfold ret. intros ?; simplify_eq. by exists content.
Qed.

(** When the loop returns, the object [checksums] holds for every draft
    the digest of its definition. *)
Lemma processDrafts_digests tpl ds v w v' w' :
  NoDup (Js.keys (checksums v)) →
  processDrafts C inv tpl ds v w = (Return v', w') →
  ∀ d, d ∈ ds →
    ∃ content, fs w !! draftDefFilename d = Some content ∧
      Js.get (checksums v') (draftDefRelativeFilename d) = Some (hashHex C content).
Proof.
  revert v w. induction ds as [|d ds IH]; intros v w Hnd Hloop d' Hd'.
  { by apply elem_of_nil in Hd'. }
  simpl in Hloop. unfold bind in Hloop.
  destruct (processDraft C inv tpl d v w) as [[v1|e1] w1] eqn:Hd; [|done].
  apply processDraft_step in Hd.
  pose proof (DraftStep_sources _ _ _ _ _ _ Hd) as Hkept.
  assert (NoDup (Js.keys (checksums v1)) ∧
          ∃ content, fs w !! draftDefFilename d = Some content ∧
            Js.get (checksums v1) (draftDefRelativeFilename d) = Some (hashHex C content))
    as (Hnd1 & content & Hfile & Hget1).
  { inversion Hd as [| |h spec Hs Hi Hu|?|h spec w2 Hs Hi Hu Hr]; subst; simpl.
    - apply fileChecksum_Return in Hs as (content & ? & ->). split; [done|].
      exists content. split; [done|]. by apply unchanged_true in Hu as [_ ?].
    - apply fileChecksum_Return in Hs as (content & ? & ->). split; [by apply set_nodup|].
      exists content. split; [done|]. rewrite get_set by done. by rewrite decide_True. }
  destruct (decide (d' ∈ ds)) as [Hin|Hnin].
  - destruct (IH _ _ Hnd1 Hloop d' Hin) as (c & Hc & Hg). exists c. split; [|done].
    by rewrite <-(Hkept (draftDefFilename d') (inSrc_draftDef d')).
  - apply elem_of_cons in Hd' as [->|?]; [|done]. exists content. split; [done|].
    destruct (decide (Js.get (checksums v') (draftDefRelativeFilename d)
                      = Js.get (checksums v1) (draftDefRelativeFilename d))) as [Heq|Hne];
      [by rewrite Heq|].
    apply processDrafts_returns in Hloop as (_ & _ & Hchg & _); [|done].
    apply Hchg in Hne as (d'' & Hd'' & Heq & _).
    apply draftDefFilename_inj in Heq as <-. done.
Qed.

Lemma run_written files doc r w' p t :
  run C inv files doc = (r, w') → (p, t) ∈ written w' →
  (∃ d, p = jsonDefFilename d ∨ p = outputFilename d) ∨ p ∈ publishedFiles.
Proof.
  intros Hrun%run_Run.
  assert (∀ tpl w1 r, processDrafts C inv tpl (drafts C inv) (vars0 doc) (initial files doc)
            = (r, w1) → (p, t) ∈ written w1 →
          ∃ d, p = jsonDefFilename d ∨ p = outputFilename d) as Hloop'.
  { intros tpl w1 r1 (_ & (ws & Hws & Hall) & _)%processDrafts_effects. simpl in Hws.
    rewrite Hws. intros Hin. rewrite Forall_forall in Hall.
    destruct (Hall _ Hin) as (d & _ & [?|[? _]]); exists d; [by left|by right]. }
  destruct Hrun as [Htpl|tpl e w' Htpl Hloop|tpl v w1 r w' Htpl Hloop Hfin].
  - by intros ?%elem_of_nil.
  - intros Hin. left. by eapply Hloop'.
  - rewrite finish_cases in Hfin. destruct (latestDraft (drafts C inv)) as [latest|].
    + apply publish_effects in Hfin as (_ & _ & (ws & Hw & Hws & _)). simpl in Hw.
      rewrite Hw. intros [Hin|Hin]%elem_of_app; [left; by eapply Hloop'|right].
      apply elem_of_cons in Hin as [?|Hin]; simplify_eq; [left|].
      rewrite Forall_forall in Hws. right. apply elem_of_app. left. by apply (Hws _ Hin).
    + simplify_eq. simpl. intros Hin. left. by eapply Hloop'.
Qed.
End Sources.

Section Untouched.
Context {Schema MessageText : Type}.
Variable C : Collaborators Schema MessageText.
Variable inv : Invocation.

(** X9. A run writes no file under [.src] but the ledger: no call of
    [Deno.writeTextFile] names a path under [.src], and when the compiler
    emits no file there, the definitions and the templates are, after the
    run, the files found. (The ledger document is kept apart from the
    other files.) *)
Theorem sources_left_untouched files doc r w' :
  run C inv files doc = (r, w') →
  (∀ p t, (p, t) ∈ written w' → inSrc p = false) ∧
  (emitsOutsideSrc C → ∀ p, inSrc p = true → fs w' !! p = files !! p).
Proof.
  intros Hrun. split.
  - intros p t Hin. destruct (run_written C inv _ _ _ _ _ _ Hrun Hin) as [[d [->| ->]]|Hpub].
    + apply inSrc_jsonDef.
    + apply inSrc_output.
    + pose proof inSrc_published as Hall. rewrite Forall_forall in Hall. by apply Hall.
  - intros Hout. by eapply run_sources.
Qed.

(** X10. A run whose loop returns leaves a ledger that holds, for every
    draft, the digest of its definition as it is in the files, regenerated
    or not, whatever happens after the loop. *)
Theorem ledger_records_current_digests files doc tpl v w1 r w' :
  emitsOutsideSrc C →
  files !! modTemplateFilename = Some tpl →
  processDrafts C inv tpl (drafts C inv) (vars0 doc) (initial files doc) = (Return v, w1) →
  run C inv files doc = (r, w') →
  ∀ d, d ∈ globbed inv →
    ∃ content,
      files !! draftDefFilename d = Some content ∧
      fs w' !! draftDefFilename d = Some content ∧
      Js.get (Js.fromEntries (ledger w')) (draftDefRelativeFilename d)
        = Some (hashHex C content).
Proof.
  intros Hout Htpl Hloop Hrun d Hd%(drafts_elem C).
  pose proof (run_sources C inv Hout _ _ _ _ Hrun (draftDefFilename d) (inSrc_draftDef d)) as Hfs.
  apply run_Run in Hrun.
  destruct Hrun as [Hno|tpl' e w' Htpl' Hloop'|tpl' v' w1' r w' Htpl' Hloop' Hfin];
    [congruence|congruence|].
  assert (tpl' = tpl) as -> by congruence.
  assert (v' = v ∧ w1' = w1) as [-> ->] by (split; congruence).
  apply finish_effects in Hfin as (Hl & _).
  pose proof (processDrafts_returns _ _ _ _ _ _ _ _ Hloop (fromEntries_nodup doc)) as (Hnd & _).
  destruct (processDrafts_digests C inv Hout tpl (drafts C inv) (vars0 doc) _ _ _
              (fromEntries_nodup doc) Hloop d Hd)
    as (content & Hfile & Hget).
  exists content. simpl in Hfile. split_and!; [done|by rewrite Hfs|].
  rewrite Hl. by rewrite reimport_sortedChecksums_get.
Qed.

(** X11. Idempotence. After a run that returns, a run without [--force]
    on the files and the ledger it left, on the same drafts or on some of
    them, regenerates nothing: it logs that each draft is skipped, writes
    only the files that follow the loop and, when [localeCompare] is a
    consistent comparator and no key of the first ledger is an array
    index, writes the ledger document it found. *)
Theorem rerun_regenerates_nothing files doc w' inv2 r2 w2 :
  emitsOutsideSrc C →
  run C inv files doc = (Return (), w') →
  FORCE_REFRESH inv2 = false →
  globbed inv2 ⊆ globbed inv →
  run C inv2 (fs w') (ledger w') = (r2, w2) →
  console w2 = skippingLine <$> drafts C inv2 ∧
  (∀ p t, (p, t) ∈ written w2 → p ∈ publishedFiles) ∧
  (∀ k, Js.get (Js.fromEntries (ledger w2)) k = Js.get (Js.fromEntries (ledger w')) k) ∧
  (Js.Consistent (localeCompare C) → Forall (λ k, Js.arrayIndex k = None) doc.*1 →
   ledger w2 = ledger w').
Proof.
  intros Hout Hrun Hforce Hsub Hrun2.
  pose proof (run_sources C inv Hout _ _ _ _ Hrun) as Hfs.
  apply run_Run in Hrun. remember (Return ()) as r eqn:Hr.
  destruct Hrun as [Hno|tpl e w' Htpl Hloop|tpl v w1 r w' Htpl Hloop Hfin]; [done..|].
  pose proof (processDrafts_returns _ _ _ _ _ _ _ _ Hloop (fromEntries_nodup doc))
    as (Hnd & (specs & Hspecs & _) & _ & _ & Hkeys).
  pose proof (processDrafts_digests C inv Hout tpl (drafts C inv) (vars0 doc) _ _ _
              (fromEntries_nodup doc) Hloop)
    as Hdigests.
  pose proof (finish_effects _ _ _ _ _ _ Hfin) as (Hl & _).
  destruct (processDrafts_unchanged C inv2 tpl (drafts C inv2) (vars0 (ledger w'))
              (initial (fs w') (ledger w'))) as [lic Hloop2].
  { apply Forall_forall. intros d Hd%drafts_elem%Hsub%(drafts_elem C).
    destruct (Hdigests d Hd) as (content & Hfile & Hget). simpl in Hfile.
    destruct (Forall2_elem_l _ _ _ _ Hspecs Hd) as (spec & _ & Hspec).
    exists (hashHex C content), spec. split_and!; [|done|].
    - unfold fileChecksum. rewrite bind_readTextFile. simpl.
      by rewrite (Hfs _ (inSrc_draftDef d)), Hfile.
    - apply unchanged_true. split; [done|]. simpl.
      rewrite Hl. by rewrite reimport_sortedChecksums_get. }
  simpl in Hloop2.
  assert (finish C inv2 {| checksums := Js.fromEntries (ledger w'); licenseCopyrights := lic |}
            (logged (initial (fs w') (ledger w')) (skippingLine <$> drafts C inv2))
          = (r2, w2)) as Hfin2.
  { apply run_Run in Hrun2.
    destruct Hrun2 as [Hno|tpl' e w2 Htpl' Hloop'|tpl' v' w1' r2 w2 Htpl' Hloop' Hfin'].
    - rewrite (Hfs modTemplateFilename eq_refl) in Hno. congruence.
    - rewrite (Hfs modTemplateFilename eq_refl) in Htpl'. simplify_eq. rewrite Hloop2 in Hloop'. done.
    - rewrite (Hfs modTemplateFilename eq_refl) in Htpl'. simplify_eq. rewrite Hloop2 in Hloop'.
      by simplify_eq. }
  pose proof (finish_effects _ _ _ _ _ _ Hfin2) as (Hl2 & Hc2). simpl in Hl2, Hc2.
  split; [done|].
  split.
  { rewrite finish_cases in Hfin2. destruct (latestDraft (drafts C inv2)) as [latest|].
    - apply publish_effects in Hfin2 as (_ & _ & (ws & Hw & Hws & _)). simpl in Hw.
      rewrite Forall_forall in Hws.
      intros p t. rewrite Hw. intros [?|Hin]%elem_of_cons; simplify_eq; [left|].
      right. apply elem_of_app. left. by apply (Hws _ Hin).
    - simplify_eq. simpl. by intros p t ?%elem_of_nil. }
  split.
  { intros k. rewrite Hl2. apply reimport_sortedChecksums_get, fromEntries_nodup. }
  intros Hc Hidx.
  assert (Forall (λ k, Js.arrayIndex k = None) (Js.keys (checksums v))) as Hidx'.
  { apply Forall_forall. intros k [Hk|(d & _ & ->)]%Hkeys.
    - simpl in Hk. rewrite fromEntries_keys in Hk. rewrite Forall_forall in Hidx. by apply Hidx.
    - apply draftDefFilename_not_index. }
  destruct (sortedChecksums_sorted C (checksums v) Hc Hnd Hidx') as (Hsort & Hsorted).
  assert (NoDup (ledger w').*1) as Hnd'.
  { rewrite Hl. apply sortedChecksums_nodup. }
  assert (Forall (λ k, Js.arrayIndex k = None) (ledger w').*1) as Hidx2.
  { rewrite Hl. apply Forall_forall. intros k Hk.
    apply (proj1 (sortedChecksums_keys C (checksums v) k)) in Hk.
    rewrite Forall_forall in Hidx'. by apply Hidx'. }
  rewrite Hl2. unfold sortedChecksums at 1.
  rewrite (fromEntries_id (ledger w')) by done.
  rewrite sort_sorted_id; [by apply fromEntries_id|].
  apply (StronglySorted_fmap_inv fst (Js.notAfter (localeCompare C))). by rewrite Hl.
Qed.
End Untouched.

Lemma sample_emitsOutsideSrc : emitsOutsideSrc sample.
Proof. intros sourceFile outputDir files. apply Forall_nil_2. Qed.

(** [completeRun] leaves the definition of [draft7] as it was. *)
Lemma sources_left_untouched_witness :
  inSrc (outputFilename "draft7") = false ∧
  fs completeRun.2 !! draftDefFilename "draft7" = Some "b".
Proof.
  destruct (sources_left_untouched sample (invocation false ["draft7"; "2019-09"])
              sampleFiles [] completeRun.1 completeRun.2) as [Hwritten Hfs].
  - apply surjective_pairing.
  - split.
    + apply (Hwritten _ (generatedSource "export {};")). vm_compute.
      do 3 right. left.
    + by rewrite (Hfs sample_emitsOutsideSrc _ (inSrc_draftDef "draft7")).
Defined.

(** The ledger of [completeRun] holds the digest of [draft7]. *)
Lemma ledger_records_current_digests_witness :
  ∃ content,
    sampleFiles !! draftDefFilename "draft7" = Some content ∧
    fs completeRun.2 !! draftDefFilename "draft7" = Some content ∧
    Js.get (Js.fromEntries (ledger completeRun.2)) (draftDefRelativeFilename "draft7")
      = Some (hashHex sample content).
Proof.
  apply (ledger_records_current_digests sample (invocation false ["draft7"; "2019-09"])
           sampleFiles [] "export {};" varsOfCompleteLoop completeLoop.2
           completeRun.1 completeRun.2).
  - exact sample_emitsOutsideSrc.
  - reflexivity.
  - vm_compute. reflexivity.
  - apply surjective_pairing.
  - left.
Defined.

(** The run that follows [completeRun] skips the draft that is left. *)
Lemma rerun_regenerates_nothing_witness :
  console rerun.2 = [skippingLine "2019-09"] ∧ ledger rerun.2 = ledger completeRun.2.
Proof.
  destruct (rerun_regenerates_nothing sample (invocation false ["draft7"; "2019-09"])
              sampleFiles [] completeRun.2 (invocation false ["2019-09"]) rerun.1 rerun.2)
    as (Hconsole & _ & _ & Hledger).
  - exact sample_emitsOutsideSrc.
  - vm_compute. reflexivity.
  - reflexivity.
  - intros d Hd. apply elem_of_cons in Hd as [->|Hd]; [right; left|].
    by apply elem_of_nil in Hd.
  - apply surjective_pairing.
  - split; [exact Hconsole|]. apply Hledger; [exact codeUnitCompare_consistent|].
    apply Forall_nil_2.
Defined.

(** ** A definition that cannot be imported *)

Section ImportFailure.
Context {Schema MessageText : Type}.
Variable C : Collaborators Schema MessageText.
Variable inv : Invocation.

(** X12. A draft whose definition module cannot be imported is fatal to
    the run, wherever the draft comes in the order: the run ends with an
    exception, of this draft or of one before it, and the ledger document
    is not written. *)
Theorem failed_import_is_fatal files doc d e r w' :
  d ∈ globbed inv →
  importDefault C (draftDefFilename d) = Throw e →
  run C inv files doc = (r, w') →
  (∃ e', r = Throw e') ∧ ledger w' = doc.
Proof.
  intros Hd%(drafts_elem C) He Hrun%run_Run.
  destruct Hrun as [Htpl|tpl e' w' Htpl Hloop|tpl v w1 r w' Htpl Hloop Hfin].
  - split; [by eexists|done].
  - apply processDrafts_effects in Hloop as (Hl & _). split; [by eexists|done].
  - exfalso.
    apply processDrafts_returns in Hloop as (_ & (specs & Hspecs & _) & _);
      [|apply fromEntries_nodup].
    destruct (Forall2_elem_l _ _ _ _ Hspecs Hd) as (spec & _ & Hspec). congruence.
Qed.
End ImportFailure.

(** [failingImportRun] ends at the import of the first draft. *)
Lemma failed_import_is_fatal_witness :
  (∃ e, failingImportRun.1 = Throw e) ∧ ledger failingImportRun.2 = staleLedger.
Proof.
  apply (failed_import_is_fatal failingImport (invocation false ["2019-09"; "draft7"])
           sampleFiles staleLedger "draft7" "SyntaxError").
  - right. left.
  - reflexivity.
  - apply surjective_pairing.
Defined.

(** ** The files a run that returns leaves *)

Lemma latestFilename_not_afterAlias : latestFilename ∉ afterAlias.
Proof.
  intros Hin. vm_compute in Hin.
  repeat (apply elem_of_cons in Hin as [Heq|Hin]; [discriminate Heq|]).
  by apply elem_of_nil in Hin.
Qed.

Lemma copyLicense_copies dirs w r w' text :
  fs w !! licenseFilename = Some text →
  copyLicense dirs w = (r, w') →
  r = Return () ∧
  (∀ p, fs w !! p = Some text → fs w' !! p = Some text) ∧
  (∀ dir, dir ∈ dirs → fs w' !! path_join dir "LICENSE.md" = Some text).
Proof.
  revert w. induction dirs as [|dir dirs IH]; intros w Hfs; simpl.
  { unfold ret. intros ?; simplify_eq. split_and!; [done..|]. by intros dir ?%elem_of_nil. }
  unfold bind, copy. rewrite Hfs. intros H.
  assert (∀ p, fs w !! p = Some text →
               fs (setFs (insert (path_join dir "LICENSE.md") text) w) !! p = Some text)
    as Hkeep.
  { intros p Hp. simpl. rewrite lookup_insert. by case_decide. }
  apply IH in H as (-> & Hkept & Hcopies); [|by apply Hkeep].
  split_and!; [done| |].
  - intros p Hp. by apply Hkept, Hkeep.
  - intros dir' [->|Hin]%elem_of_cons; [|by apply Hcopies].
    apply Hkept. simpl. rewrite lookup_insert. by rewrite decide_True.
Qed.

Section Published.
Context {Schema MessageText : Type}.
Variable C : Collaborators Schema MessageText.
Variable inv : Invocation.

Lemma publish_returns latest lic w w' :
  publish C inv latest lic w = (Return (), w') →
  ∃ text,
    (licenseFilename, text) ∈ written w' ∧
    fs w' !! licenseFilename = Some text ∧
    (∀ dir, dir ∈ ALL_DIST_DIRS → fs w' !! path_join dir "LICENSE.md" = Some text) ∧
    fs w' !! latestFilename = Some (latestSource latest) ∧
    fs w' !! packageJsonFilename = Some (packageJsonText C inv latest) ∧
    fs w' !! versionFilename = Some (versionSource (VERSION inv)).
Proof.
  unfold publish. rewrite bind_writeTextFile. unfold bind at 1.
  destruct (updateReadmes C inv _ _ _) as [r1 w1] eqn:H1.
  apply (updateReadmes_frame _ _ afterAlias) in H1;
    [|intros p ?; apply elem_of_app; left; apply elem_of_app; by left].
  destruct r1 as [[]|e1]; intros H; simplify_eq.
  rewrite bind_readTextFile in H.
  destruct (fs w1 !! _) as [template|]; simplify_eq.
  rewrite bind_await in H.
  destruct (licenseText C inv template lic) as [text|e]; simplify_eq.
  rewrite bind_writeTextFile in H. unfold bind at 1 in H.
  destruct (copyLicense _ _) as [r2 w2] eqn:H2.
  pose proof (copyLicense_frame afterAlias _ _ _ _
                ltac:(intros p ?; apply elem_of_app; by right) H2) as Hframe2.
  pose proof (copyLicense_effects _ _ _ _ H2) as (_ & _ & Hw2). simpl in Hw2.
  apply (copyLicense_copies _ _ _ _ text) in H2 as (-> & Hkept & Hcopies);
    [|simpl; rewrite lookup_insert; by rewrite decide_True].
  rewrite !bind_writeTextFile in H. unfold writeTextFile in H. simplify_eq/=.
  exists text. split_and!.
  - rewrite Hw2. do 2 (apply elem_of_app; left). apply elem_of_app. right. left.
  - rewrite !lookup_insert_ne by done. apply Hkept. simpl.
    rewrite lookup_insert. by rewrite decide_True.
  - intros dir Hdir. specialize (Hcopies dir Hdir).
    rewrite !lookup_insert_ne; [done| |]; intros Heq; vm_compute in Hdir;
      repeat (apply elem_of_cons in Hdir as [->|Hdir]; [discriminate Heq|]);
      by apply elem_of_nil in Hdir.
  - rewrite !lookup_insert_ne by done.
    rewrite (Hframe2 _ latestFilename_not_afterAlias). simpl.
    rewrite lookup_insert_ne by done.
    rewrite (H1 _ latestFilename_not_afterAlias). simpl.
    rewrite lookup_insert. by rewrite decide_True.
  - rewrite lookup_insert_ne by done. rewrite lookup_insert. by rewrite decide_True.
  - rewrite lookup_insert. by rewrite decide_True.
Qed.

Lemma run_returns files doc w' :
  run C inv files doc = (Return (), w') →
  ∃ latest v w1,
    latestDraft (drafts C inv) = Some latest ∧
    publish C inv latest (licenseCopyrights v) w1 = (Return (), w').
Proof.
  intros Hrun%run_Run. remember (Return ()) as r eqn:Hr.
  destruct Hrun as [Hno|tpl e w' Htpl Hloop|tpl v w1 r w' Htpl Hloop Hfin]; [done..|].
  rewrite finish_cases in Hfin. destruct (latestDraft (drafts C inv)) as [latest|].
  - exists latest, v, (recorded w1 (sortedChecksums C (checksums v))). by subst.
  - by simplify_eq.
Qed.

(** X13. When a run returns, the three distribution directories hold a
    copy of the LICENSE that the run has written. *)
Theorem license_copied_to_every_dist_dir files doc w' :
  run C inv files doc = (Return (), w') →
  ∃ text,
    (licenseFilename, text) ∈ written w' ∧
    fs w' !! licenseFilename = Some text ∧
    ∀ dir, dir ∈ ALL_DIST_DIRS → fs w' !! path_join dir "LICENSE.md" = Some text.
Proof.
  intros (latest & v & w1 & _ & Hpub)%run_returns.
  apply publish_returns in Hpub as (text & ? & ? & ? & _). by exists text.
Qed.

(** X14. When a run returns, [draft_latest.ts] re-exports the module of
    the latest draft, and [package.json] and [version.ts] are as the run
    wrote them: nothing that follows writes them again, and [deno fmt] is
    not run on them. *)
Theorem published_modules_final files doc w' :
  run C inv files doc = (Return (), w') →
  ∃ latest,
    latestDraft (drafts C inv) = Some latest ∧
    fs w' !! latestFilename = Some (latestSource latest) ∧
    fs w' !! packageJsonFilename = Some (packageJsonText C inv latest) ∧
    fs w' !! versionFilename = Some (versionSource (VERSION inv)).
Proof.
  intros (latest & v & w1 & Hlatest & Hpub)%run_returns.
  apply publish_returns in Hpub as (text & _ & _ & _ & ? & ? & ?). by exists latest.
Qed.

(** X15. The ledger document that is written does not depend on the order
    of the entries of [checksums], when [localeCompare] is a consistent
    comparator that tells any two keys apart. *)
Theorem persisted_ledger_canonical o1 o2 :
  Js.Consistent (localeCompare C) → distinguishes (localeCompare C) →
  NoDup (Js.keys o1) → o1 ≡ₚ o2 →
  sortedChecksums C o1 = sortedChecksums C o2.
Proof.
  intros Hc Hd Hnd Hp. unfold sortedChecksums. f_equal.
  apply sort_unique; [by apply compareKeys_consistent| |done].
  intros [k1 v1] [k2 v2] H1 H2 Hle Hge. simpl in *.
  assert (k1 = k2) as -> by (by apply Hd).
  apply (get_elem_nodup _ _ _ Hnd) in H1, H2. congruence.
Qed.
End Published.

(** X16. The line of a draft in the LICENSE puts [, and] before the last
    credit, whatever the number of credits: with one credit, and with
    none, the line still holds [, and]. *)
Theorem copyrightLine_credits d y init l :
  copyrightLine {| draft := d; year := y; credits := init ++ [l] |}
    = pretty y +:+ " [draft-" +:+ d +:+ "] " +:+ Js.join ", " init +:+ ", and " +:+ l +:+ "." ∧
  copyrightLine {| draft := d; year := y; credits := [l] |}
    = pretty y +:+ " [draft-" +:+ d +:+ "] , and " +:+ l +:+ "." ∧
  copyrightLine {| draft := d; year := y; credits := [] |}
    = pretty y +:+ " [draft-" +:+ d +:+ "] , and .".
Proof.
  unfold copyrightLine. simpl credits. rewrite removelast_last, last_snoc. done.
Qed.

Lemma license_copied_to_every_dist_dir_witness :
  ∃ text, fs completeRun.2 !! licenseFilename = Some text ∧
          fs completeRun.2 !! "dist/node/LICENSE.md" = Some text.
Proof.
  destruct (license_copied_to_every_dist_dir sample (invocation false ["draft7"; "2019-09"])
              sampleFiles [] completeRun.2) as (text & _ & Hlicense & Hcopies).
  - vm_compute. reflexivity.
  - exists text. split; [exact Hlicense|]. apply (Hcopies NODE_DIR). do 2 right. left.
Defined.

Lemma published_modules_final_witness :
  fs completeRun.2 !! latestFilename = Some (latestSource "2019-09").
Proof.
  destruct (published_modules_final sample (invocation false ["draft7"; "2019-09"])
              sampleFiles [] completeRun.2) as (latest & Hlatest & Halias & _).
  - vm_compute. reflexivity.
  - rewrite Halias. vm_compute in Hlatest. by injection Hlatest as <-.
Defined.

Lemma persisted_ledger_canonical_witness :
  sortedChecksums sample [("b", "1"); ("a", "2")] = sortedChecksums sample [("a", "2"); ("b", "1")].
Proof.
  apply persisted_ledger_canonical.
  - exact codeUnitCompare_consistent.
  - exact codeUnitCompare_distinguishes.
  - apply NoDup_cons. split; [|apply NoDup_singleton].
    intros Hin%list_elem_of_singleton. discriminate Hin.
  - apply perm_swap.
Defined.

(** ** The LICENSE *)













Section LicenseText.
Context {Schema MessageText : Type}.
Variable C : Collaborators Schema MessageText.
Variable inv : Invocation.



End LicenseText.


